(** * health: a registry of named health checks and its HTTP status handler

    A shallow embedding of [health.go].  Go values are modelled as follows.

    - [error] is [option string]: [None] is the nil error, [Some e] an error
      whose [Error()] text is [e].
    - Pointers ([*Registry], [*updater]) are [option loc]: [None] is the nil
      pointer, [Some l] an address in the corresponding heap of the state.
    - [map[string]T] is [gmap string T]; the nil map of a zero-value
      [Registry] is [None].  A [range] loop over a map visits every key once
      in an order Go leaves unspecified, so the loop takes the order as an
      argument and the theorems hold for every order.
    - A call either returns or panics; the state reached is kept in both
      cases, so that what a panicking call has (not) done can be stated.
    - The mutexes are not represented: every exported operation holds its
      lock from entry to exit ([defer Unlock]), so in this sequential model
      an operation is one atomic step; goroutines interleave between such
      steps (see [event]).
    - Functions of the Go standard library that the package calls
      ([json.Marshal], [http.NotFound], [time.NewTicker]) are not part of the
      repository.  [json.Marshal] is a parameter; [http.NotFound] and the
      ticker are written after the library's documented behaviour. *)

From stdpp Require Import base gmap strings list fin_maps pretty.

Open Scope string_scope.

(** ** Results of calls *)

Inductive outcome (A : Type) : Type :=
  | Returned (a : A)
  | Panicked (msg : string).
Arguments Returned {A} a.
Arguments Panicked {A} msg.

(** The run-time panics the package can raise by itself. *)
Definition nil_dereference : string :=
  "runtime error: invalid memory address or nil pointer dereference".
Definition nil_map_assignment : string := "assignment to entry in nil map".

(** ** Data model *)

Abbreviation loc := nat.

(** [type Result struct { Error error; Message string }] *)
Record Result := mkResult {
  Error : option string;
  Message : string
}.

(** The zero value of [Result], the content of [&updater{}]. *)
Definition zero_Result : Result := {| Error := None; Message := EmptyString |}.

(** [type HealthCheck struct { Healthy bool; Message string }]; the second
    field is [Message] in the source. *)
Record HealthCheck := mkHealthCheck {
  Healthy : bool;
  hcMessage : string
}.

(** [type Status map[string]HealthCheck] *)
Abbreviation Status := (gmap string HealthCheck).

Definition is_nil (e : option string) : bool :=
  match e with None => true | Some _ => false end.

Section Health.

(** Whatever the checks look at (network, disk, ...): the part of the
    program state that belongs to the callers' check functions. *)
Context {World : Type}.

(** [type CheckFunc func() Result].  [None] is the nil func value; a body
    reads and changes the world and returns a [Result] or panics.  A body
    that calls back into this package (registers a check, updates an
    updater, logs) is not represented: what is proved of a check function is
    proved of those that act on the world only. *)
Definition CheckFunc : Type := option (World → outcome Result * World).

(** A value of the interface type [Checker]: the nil interface, a
    [CheckFunc], or an [*updater].  A checker type defined by a caller is
    represented by its [Check] method, as a [CheckFunc]. *)
Inductive Checker : Type :=
  | NilChecker
  | FuncChecker (cf : CheckFunc)
  | UpdaterChecker (u : option loc).

(** [type Registry struct { mu sync.RWMutex; registeredChecks map[string]Checker }] *)
Record Registry := mkRegistry {
  registeredChecks : option (gmap string Checker)
}.

(** The state of a goroutine started by [PeriodicChecker]:
    - [AtNewTicker]: spawned, [time.NewTicker(period)] not executed yet;
    - [AtReceive]: blocked in [<-t.C];
    - [AtUpdate r]: [check.Check()] has returned [r], [u.Update(r)] is next. *)
Inductive pc : Type :=
  | AtNewTicker
  | AtReceive
  | AtUpdate (r : Result).

Record Goroutine := mkGoroutine {
  g_u : option loc;
  g_check : Checker;
  g_period : Z;
  g_pc : pc
}.

Record State := mkState {
  world : World;
  registries : gmap loc Registry;
  updaters : gmap loc Result;
  DefaultRegistry : option loc;
  goroutines : list Goroutine;
  logged : list string
}.

Definition set_world (w : World) (s : State) : State :=
  mkState w (registries s) (updaters s) (DefaultRegistry s) (goroutines s) (logged s).
Definition set_registries (rs : gmap loc Registry) (s : State) : State :=
  mkState (world s) rs (updaters s) (DefaultRegistry s) (goroutines s) (logged s).
Definition set_updaters (us : gmap loc Result) (s : State) : State :=
  mkState (world s) (registries s) us (DefaultRegistry s) (goroutines s) (logged s).
Definition set_DefaultRegistry (d : option loc) (s : State) : State :=
  mkState (world s) (registries s) (updaters s) d (goroutines s) (logged s).
Definition set_goroutines (gs : list Goroutine) (s : State) : State :=
  mkState (world s) (registries s) (updaters s) (DefaultRegistry s) gs (logged s).
Definition log_Printf (line : string) (s : State) : State :=
  mkState (world s) (registries s) (updaters s) (DefaultRegistry s) (goroutines s)
          (logged s ++ [line]).

(** ** Calls: state passing with panics *)

Definition M (A : Type) : Type := State → outcome A * State.

Definition ret {A} (a : A) : M A := λ s, (Returned a, s).
Definition panic {A} (msg : string) : M A := λ s, (Panicked msg, s).
Definition bind {A B} (m : M A) (k : A → M B) : M B :=
  λ s, match m s with
       | (Returned a, s') => k a s'
       | (Panicked msg, s') => (Panicked msg, s')
       end.
Definition get : M State := λ s, (Returned s, s).
Definition modify (f : State → State) : M unit := λ s, (Returned tt, f s).

Notation "x <- m ;; k" := (bind m (λ x, k))
  (at level 100, m at next level, right associativity).

(** Reading through a pointer: nil panics.  An address outside the heap
    does not arise in Go; it is given the same panic. *)
Definition deref {A} (heap : State → gmap loc A) (p : option loc) : M A :=
  λ s, match p with
       | None => (Panicked nil_dereference, s)
       | Some l => match heap s !! l with
                   | Some a => (Returned a, s)
                   | None => (Panicked nil_dereference, s)
                   end
       end.

(** ** updater *)

(** [func (u *updater) Check() Result] *)
Definition updater_Check (u : option loc) : M Result :=
  status <- deref updaters u ;;
  ret status.

(** [func (u *updater) Update(status Result)] *)
Definition updater_Update (u : option loc) (status : Result) : M unit :=
  _ <- deref updaters u ;;
  match u with
  | Some l => modify (λ s, set_updaters (<[l := status]> (updaters s)) s)
  | None => panic nil_dereference
  end.

(** [func NewStatusUpdater() Updater]: [&updater{}] at a fresh address. *)
Definition NewStatusUpdater : M (option loc) :=
  λ s, let l := fresh (dom (updaters s)) in
       (Returned (Some l), set_updaters (<[l := zero_Result]> (updaters s)) s).

(** ** Checker *)

(** [func (cf CheckFunc) Check() Result { return cf() }] *)
Definition CheckFunc_Check (cf : CheckFunc) : M Result :=
  match cf with
  | None => panic nil_dereference
  | Some body => λ s, let '(o, w) := body (world s) in (o, set_world w s)
  end.

(** Dynamic dispatch of [v.Check()] on a [Checker]. *)
Definition Check (v : Checker) : M Result :=
  match v with
  | NilChecker => panic nil_dereference
  | FuncChecker cf => CheckFunc_Check cf
  | UpdaterChecker u => updater_Check u
  end.

(** [v] keeps the contract of [Checker] in [s]: whatever the world is,
    [v.Check()] returns a [Result]. *)
Definition answers (s : State) (v : Checker) : Prop :=
  ∀ w, ∃ r s', Check v (set_world w s) = (Returned r, s').

(** ** Registry *)

(** [func NewRegistry() *Registry] *)
Definition NewRegistry : M (option loc) :=
  λ s, let l := fresh (dom (registries s)) in
       (Returned (Some l),
        set_registries (<[l := {| registeredChecks := Some ∅ |}]> (registries s)) s).

(** [func init() { DefaultRegistry = NewRegistry() }] *)
Definition init : M unit :=
  r <- NewRegistry ;;
  modify (set_DefaultRegistry r).

(** Reading a nil map behaves as reading an empty one. *)
Definition checks_of (reg : Registry) : gmap string Checker :=
  default ∅ (registeredChecks reg).

(** The registry a call of [Register] works on: [DefaultRegistry] for a nil
    receiver. *)
Definition receiver (registry : option loc) (s : State) : option loc :=
  match registry with None => DefaultRegistry s | Some _ => registry end.

(** [func (registry *Registry) Register(name string, check Checker)] *)
Definition Register (registry : option loc) (name : string) (check : Checker) : M unit :=
  s <- get ;;
  let registry := receiver registry s in
  reg <- deref registries registry ;;
  match checks_of reg !! name with
  | Some _ => panic ("Check already exists: " ++ name)
  | None =>
      match registeredChecks reg, registry with
      | Some m, Some l =>
          modify (λ s, set_registries
                         (<[l := {| registeredChecks := Some (<[name := check]> m) |}]>
                            (registries s)) s)
      | None, _ => panic nil_map_assignment
      | _, None => panic nil_dereference
      end
  end.

(** A caller registering the checks [regs] one after the other. *)
Fixpoint Register_all (registry : option loc) (regs : list (string * Checker)) : M unit :=
  match regs with
  | [] => ret tt
  | (name, check) :: rest =>
      _ <- Register registry name check ;;
      Register_all registry rest
  end.

(** The body of the loop of [CheckStatus], for the key [k] bound to [v]. *)
Definition CheckStatus_body (k : string) (v : Checker) (status : Status) : M Status :=
  res <- Check v ;;
  let healthy := is_nil (Error res) in
  ret (<[k := {| Healthy := healthy; hcMessage := Message res |}]> status).

(** [for k, v := range checks { ... }], visiting the keys in [order]. *)
Fixpoint CheckStatus_range (checks : gmap string Checker) (order : list string)
    (status : Status) : M Status :=
  match order with
  | [] => ret status
  | k :: rest =>
      match checks !! k with
      | Some v =>
          status' <- CheckStatus_body k v status ;;
          CheckStatus_range checks rest status'
      | None => CheckStatus_range checks rest status
      end
  end.

(** An order in which [range] may visit the keys of [m]: each key once. *)
Definition range_order {A} (m : gmap string A) (order : list string) : Prop :=
  order ≡ₚ (map_to_list m).*1.

(** [func (registry *Registry) CheckStatus() Status] *)
Definition Registry_CheckStatus (registry : option loc) (order : list string) : M Status :=
  reg <- deref registries registry ;;
  CheckStatus_range (checks_of reg) order ∅.

(** [func CheckStatus() Status] *)
Definition CheckStatus (order : list string) : M Status :=
  s <- get ;;
  Registry_CheckStatus (DefaultRegistry s) order.

(** [func (registry *Registry) RegisterFunc(name string, check CheckFunc)] *)
Definition RegisterFunc (registry : option loc) (name : string) (check : CheckFunc) : M unit :=
  Register registry name (FuncChecker check).

(** ** Periodic checks *)

(** [func PeriodicChecker(check Checker, period time.Duration) Checker]:
    [go func() { ... }()] adds a goroutine that has not run yet. *)
Definition PeriodicChecker (check : Checker) (period : Z) : M Checker :=
  u <- NewStatusUpdater ;;
  _ <- modify (λ s, set_goroutines
                      (goroutines s ++ [mkGoroutine u check period AtNewTicker]) s) ;;
  ret (UpdaterChecker u).

(** [func (registry *Registry) RegisterPeriodicFunc(name, period, check)] *)
Definition RegisterPeriodicFunc (registry : option loc) (name : string) (period : Z)
    (check : CheckFunc) : M unit :=
  c <- PeriodicChecker (FuncChecker check) period ;;
  Register registry name c.

Definition set_pc (i : nat) (p : pc) : M unit :=
  modify (λ s, set_goroutines
                 (alter (λ g, mkGoroutine (g_u g) (g_check g) (g_period g) p) i
                        (goroutines s)) s).

(** What the scheduler and the ticker can make goroutine [i] do:
    - [NewTicker i]: it executes [t := time.NewTicker(period)], which panics
      for a period that is not positive;
    - [Tick i]: its ticker delivers on [t.C], it receives and evaluates
      [check.Check()];
    - [Store i]: it executes [u.Update] on the value just computed, which
      completes the iteration.
    An event for a goroutine that is not at that point changes nothing.  A
    panic in a goroutine ends the process. *)
Inductive event : Type :=
  | NewTicker (i : nat)
  | Tick (i : nat)
  | Store (i : nat).

#[global] Instance event_eq_dec : EqDecision event.
Proof. solve_decision. Defined.

Definition exec (e : event) : M unit :=
  s <- get ;;
  match e with
  | NewTicker i =>
      match goroutines s !! i with
      | Some (mkGoroutine _ _ period AtNewTicker) =>
          if decide (period ≤ 0)%Z
          then panic "non-positive interval for NewTicker"
          else set_pc i AtReceive
      | _ => ret tt
      end
  | Tick i =>
      match goroutines s !! i with
      | Some (mkGoroutine _ check _ AtReceive) =>
          r <- Check check ;;
          set_pc i (AtUpdate r)
      | _ => ret tt
      end
  | Store i =>
      match goroutines s !! i with
      | Some (mkGoroutine u _ _ (AtUpdate r)) =>
          _ <- updater_Update u r ;;
          set_pc i AtReceive
      | _ => ret tt
      end
  end.

Fixpoint run (tr : list event) : M unit :=
  match tr with
  | [] => ret tt
  | e :: tr' => _ <- exec e ;; run tr'
  end.

(** The goroutines started by [PeriodicChecker] hold updaters that exist. *)
Definition goroutines_allocated (s : State) : Prop :=
  ∀ g, g ∈ goroutines s → ∃ l, g_u g = Some l ∧ is_Some (updaters s !! l).

(** Goroutine [i] runs the loop of [PeriodicChecker check period] at [p];
    its updater, at [l], holds [r] and belongs to no other goroutine. *)
Definition periodic (s : State) (i : nat) (l : loc) (check : Checker) (period : Z)
    (p : pc) (r : Result) : Prop :=
  goroutines s !! i = Some (mkGoroutine (Some l) check period p)
  ∧ updaters s !! l = Some r
  ∧ ∀ j g, j ≠ i → goroutines s !! j = Some g → g_u g ≠ Some l.

(** ** HTTP *)

Definition StatusOK : Z := 200.
Definition StatusNotFound : Z := 404.
Definition StatusInternalServerError : Z := 500.
Definition StatusServiceUnavailable : Z := 503.

(** The part of [*http.Request] the handler reads. *)
Record Request := mkRequest {
  Method : string
}.

(** An [http.ResponseWriter] as a reply under construction: the header map,
    the status code once [WriteHeader] has been called, the body written so
    far, and the error [Write] returns when the connection is gone. *)
Record ResponseWriter := mkResponseWriter {
  Header : gmap string string;
  code : option Z;
  body : string;
  conn_error : option string
}.

Definition Header_Set (k v : string) (w : ResponseWriter) : ResponseWriter :=
  mkResponseWriter (<[k := v]> (Header w)) (code w) (body w) (conn_error w).

(** [w.WriteHeader(status)]: only the first call counts. *)
Definition WriteHeader (status : Z) (w : ResponseWriter) : ResponseWriter :=
  match code w with
  | Some _ => w
  | None => mkResponseWriter (Header w) (Some status) (body w) (conn_error w)
  end.

(** [w.Write(p)]: sends the header with 200 if none was sent, then the
    bytes; returns the writer and the error. *)
Definition Write (p : string) (w : ResponseWriter) : ResponseWriter * option string :=
  let w := WriteHeader StatusOK w in
  match conn_error w with
  | Some e => (w, Some e)
  | None => (mkResponseWriter (Header w) (code w) (body w ++ p) None, None)
  end.

(** The line feed that [fmt.Fprintln] appends. *)
Definition newline : string := String (Ascii.ascii_of_nat 10) EmptyString.

(** [http.Error(w, error, code)] of net/http: two headers,
    [w.WriteHeader(code)], [fmt.Fprintln(w, error)].  Later versions of the
    library first delete headers set before the call, which makes no
    difference on a writer whose header map is empty, as the handler's is. *)
Definition http_Error (w : ResponseWriter) (error : string) (code : Z) : ResponseWriter :=
  let w := Header_Set "Content-Type" "text/plain; charset=utf-8" w in
  let w := Header_Set "X-Content-Type-Options" "nosniff" w in
  let w := WriteHeader code w in
  fst (Write (error ++ newline) w).

(** The writer a handler is given: nothing set, nothing sent. *)
Definition new_ResponseWriter : ResponseWriter :=
  mkResponseWriter ∅ None EmptyString None.

(** [http.NotFound(w, r)] of net/http. *)
Definition http_NotFound (w : ResponseWriter) (r : Request) : ResponseWriter :=
  http_Error w "404 page not found" StatusNotFound.

(** The two values the package passes to [json.Marshal]: a [Status], and
    the anonymous struct with the single field [ServerError]. *)
Inductive payload : Type :=
  | StatusPayload (checks : Status)
  | ServerErrorPayload (ServerError : string).

(** [json.Marshal]: the bytes, or the error. *)
Context (json_Marshal : payload → string + string).

(** [func statusResponse(w, r, status, checks)] *)
Definition statusResponse (w : ResponseWriter) (r : Request) (status : Z)
    (checks : Status) : M ResponseWriter :=
  let reply (status : Z) (p : string) : M ResponseWriter :=
    let w := Header_Set "Content-Type" "application/json; charset=utf-8" w in
    let w := Header_Set "Content-Length" (pretty (String.length p)) w in
    let w := WriteHeader status w in
    match Write p w with
    | (w, Some err) =>
        _ <- modify (log_Printf ("error writing health status response body: " ++ err)) ;;
        ret w
    | (w, None) => ret w
    end in
  match json_Marshal (StatusPayload checks) with
  | inl p => reply status p
  | inr err =>
      _ <- modify (log_Printf ("error serializing health status: " ++ err)) ;;
      match json_Marshal (ServerErrorPayload "Could not parse error message") with
      | inr err =>
          _ <- modify (log_Printf
                         ("error serializing health status failure message: " ++ err)) ;;
          ret w
      | inl p => reply StatusInternalServerError p
      end
  end.

(** [for _, v := range checks { if !v.Healthy { isFailing = true } }] *)
Fixpoint isFailing_range (checks : Status) (order : list string) (isFailing : bool) : bool :=
  match order with
  | [] => isFailing
  | k :: rest =>
      match checks !! k with
      | Some v => isFailing_range checks rest (if negb (Healthy v) then true else isFailing)
      | None => isFailing_range checks rest isFailing
      end
  end.

(** [func StatusHandler(w http.ResponseWriter, r *http.Request)]; [order]
    and [order'] are the orders of its two [range] loops (the first one
    inside [CheckStatus]). *)
Definition StatusHandler (w : ResponseWriter) (r : Request) (order order' : list string)
    : M ResponseWriter :=
  if decide (Method r = "GET") then
    checks <- CheckStatus order ;;
    let isFailing := isFailing_range checks order' false in
    let status := if isFailing then StatusServiceUnavailable else StatusOK in
    statusResponse w r status checks
  else
    ret (http_NotFound w r).

(** ** The functions of the package that work on [DefaultRegistry] *)

(** [func Register(name string, check Checker)] *)
Definition pkg_Register (name : string) (check : Checker) : M unit :=
  s <- get ;;
  Register (DefaultRegistry s) name check.

(** [func RegisterFunc(name string, check CheckFunc)] *)
Definition pkg_RegisterFunc (name : string) (check : CheckFunc) : M unit :=
  s <- get ;;
  RegisterFunc (DefaultRegistry s) name check.

(** [func RegisterPeriodicFunc(name string, period time.Duration, check CheckFunc)] *)
Definition pkg_RegisterPeriodicFunc (name : string) (period : Z) (check : CheckFunc)
    : M unit :=
  s <- get ;;
  RegisterPeriodicFunc (DefaultRegistry s) name period check.

(** ** The program around the goroutines *)

(** The calls the rest of the program makes between two steps of the
    goroutines. *)
Inductive call : Type :=
  | CallInit
  | CallNewRegistry
  | CallRegister (registry : option loc) (name : string) (check : Checker)
  | CallRegisterPeriodicFunc (registry : option loc) (name : string) (period : Z)
      (check : CheckFunc)
  | CallCheckStatus (registry : option loc) (order : list string)
  | CallStatusHandler (w : ResponseWriter) (r : Request) (order order' : list string)
  | CallPeriodicChecker (check : Checker) (period : Z)
  | CallNewStatusUpdater
  | CallUpdate (u : option loc) (status : Result)
  | CallCheck (v : Checker).

(** The state a call leaves, whether it returns or panics: a caller may
    recover the panic, as net/http does for a handler, and go on. *)
Definition after_call (c : call) (s : State) : State :=
  match c with
  | CallInit => snd (init s)
  | CallNewRegistry => snd (NewRegistry s)
  | CallRegister registry name check => snd (Register registry name check s)
  | CallRegisterPeriodicFunc registry name period check =>
      snd (RegisterPeriodicFunc registry name period check s)
  | CallCheckStatus registry order => snd (Registry_CheckStatus registry order s)
  | CallStatusHandler w r order order' => snd (StatusHandler w r order order' s)
  | CallPeriodicChecker check period => snd (PeriodicChecker check period s)
  | CallNewStatusUpdater => snd (NewStatusUpdater s)
  | CallUpdate u status => snd (updater_Update u status s)
  | CallCheck v => snd (Check v s)
  end.

(** A step of the program: an event of a goroutine, or a call. *)
Inductive step : Type :=
  | Go (e : event)
  | Caller (c : call).

Definition perform (st : step) : M unit :=
  match st with
  | Go e => exec e
  | Caller c => modify (after_call c)
  end.

Fixpoint proceed (steps : list step) : M unit :=
  match steps with
  | [] => ret tt
  | st :: steps' => _ <- perform st ;; proceed steps'
  end.

(** The events of the goroutines among the steps, in order. *)
Definition events (steps : list step) : list event :=
  omap (λ st, match st with Go e => Some e | Caller _ => None end) steps.

(** The updaters on which the callers call [Update]. *)
Definition updated (steps : list step) : list (option loc) :=
  omap (λ st, match st with Caller (CallUpdate u _) => Some u | _ => None end) steps.

(** Where the loop of a goroutine is. *)
Inductive point : Type :=
  | Starting
  | Receiving
  | Storing.

#[global] Instance point_eq_dec : EqDecision point.
Proof. solve_decision. Defined.

Definition point_of (p : pc) : point :=
  match p with
  | AtNewTicker => Starting
  | AtReceive => Receiving
  | AtUpdate _ => Storing
  end.

(** Where an event takes goroutine [g]: [NewTicker] from the start to the
    receive, [Tick] from the receive to the update, [Store] back to the
    receive; an event that comes at another point, or for another
    goroutine, changes nothing. *)
Definition point_step (g : nat) (p : point) (e : event) : point :=
  match e, p with
  | NewTicker j, Starting => if decide (j = g) then Receiving else p
  | Tick j, Receiving => if decide (j = g) then Storing else p
  | Store j, Storing => if decide (j = g) then Receiving else p
  | _, _ => p
  end.

(** Where goroutine [g], newly started, is after the events [tr]. *)
Definition point_after (g : nat) (tr : list event) : point :=
  foldl (point_step g) Starting tr.

(** A checker whose [Check] leaves the program as it found it. *)
Definition read_only (v : Checker) : Prop :=
  ∀ s, snd (Check v s) = s.

End Health.

Arguments State : clear implicits.
Arguments Checker : clear implicits.
Arguments Registry : clear implicits.
Arguments Goroutine : clear implicits.
Arguments CheckFunc : clear implicits.
Arguments M : clear implicits.
Arguments call : clear implicits.
Arguments step : clear implicits.

(** * Examples

    A program whose world is a counter, and three encoders standing for
    [json.Marshal]. *)

(** The program before [init] has run. *)
Definition start (w : nat) : State nat := mkState w ∅ ∅ None [] [].

(** The program after [init]: an empty [DefaultRegistry]. *)
Definition boot : State nat := snd (init (start 0)).

Definition healthy_check : CheckFunc nat :=
  Some (λ w, (Returned {| Error := None; Message := EmptyString |}, w)).

Definition disk_full : CheckFunc nat :=
  Some (λ w, (Returned {| Error := Some "disk full"; Message := "disk full" |}, w)).

Definition crashing : CheckFunc nat :=
  Some (λ w, (Panicked "connection refused", w)).

(** A check that reports the counter and increments it. *)
Definition counting : CheckFunc nat :=
  Some (λ w, (Returned {| Error := None; Message := pretty w |}, S w)).

(** [boot] after [RegisterFunc("a", healthy_check)] and
    [RegisterFunc("b", disk_full)]. *)
Definition two_checks : State nat :=
  snd (RegisterFunc None "b" disk_full (snd (RegisterFunc None "a" healthy_check boot))).

(** [boot] after [RegisterFunc("db", crashing)]. *)
Definition one_crashing : State nat :=
  snd (RegisterFunc None "db" crashing boot).

(** The [Status] of [two_checks]. *)
Definition two_entries : Status :=
  <["b" := {| Healthy := false; hcMessage := "disk full" |}]>
    (<["a" := {| Healthy := true; hcMessage := EmptyString |}]> ∅).

Definition dquote : string := String (Ascii.ascii_of_nat 34) EmptyString.
Definition quoted (x : string) : string := dquote ++ x ++ dquote.

Definition render_HealthCheck (h : HealthCheck) : string :=
  "{" ++ quoted "healthy" ++ ":" ++ (if Healthy h then "true" else "false") ++ ","
      ++ quoted "message" ++ ":" ++ quoted (hcMessage h) ++ "}".

Definition render_member (kv : string * HealthCheck) : string :=
  quoted kv.1 ++ ":" ++ render_HealthCheck kv.2.

Definition render_ServerError (e : string) : string :=
  "{" ++ quoted "server_error" ++ ":" ++ quoted e ++ "}".

(** An encoder that succeeds: JSON objects, strings written without
    escapes. *)
Definition plain_json (v : payload) : string + string :=
  match v with
  | StatusPayload checks =>
      inl ("{" ++ String.concat "," (render_member <$> map_to_list checks) ++ "}")
  | ServerErrorPayload e => inl (render_ServerError e)
  end.

(** An encoder that fails on a [Status]. *)
Definition no_Status_json (v : payload) : string + string :=
  match v with
  | StatusPayload _ => inr "json: unsupported value"
  | ServerErrorPayload e => inl (render_ServerError e)
  end.

(** An encoder that fails on everything. *)
Definition no_json (v : payload) : string + string :=
  inr "json: unsupported value".

(** [boot] after [RegisterFunc("a", healthy_check)]. *)
Definition one_healthy : State nat :=
  snd (pkg_RegisterFunc "a" healthy_check boot).

(** A program holding a zero-value [Registry], as [new(Registry)] gives. *)
Definition with_zero_Registry : State nat :=
  mkState 0 {[ 0 := {| registeredChecks := None |} ]} ∅ None [] [].

(** A writer whose connection is gone. *)
Definition broken_pipe : ResponseWriter :=
  mkResponseWriter ∅ None EmptyString (Some "write: broken pipe").

(** [boot] after [PeriodicChecker(crashing, 5)], the goroutine having
    created its ticker. *)
Definition crashing_periodic : State nat :=
  snd (run [NewTicker 0] (snd (PeriodicChecker (FuncChecker crashing) 5 boot))).

(** * Properties *)

Section Properties.

Context {World : Type}.

Implicit Types (s : State World) (v check : Checker World) (reg : Registry World).
Implicit Types (name k : string) (l : loc) (registry u : option loc).

(** Unfolding the calls of the monad. *)
Ltac run_call :=
  unfold bind, get, ret, panic, modify, deref, set_world, set_registries,
    set_updaters, set_DefaultRegistry, set_goroutines, log_Printf in *;
  simpl in *.

(** ** Register *)

Lemma Register_nil name check s :
  Register None name check s = Register (DefaultRegistry s) name check s.
Proof.
  unfold Register, receiver. run_call.
  destruct (DefaultRegistry s) as [l|] eqn:Hd; rewrite ?Hd; reflexivity.
Qed.

Lemma Register_duplicate registry l reg name old check s :
  receiver registry s = Some l →
  registries s !! l = Some reg →
  checks_of reg !! name = Some old →
  Register registry name check s = (Panicked ("Check already exists: " ++ name), s).
Proof.
  intros Hrcv Hreg Hold. unfold Register. run_call.
  rewrite Hrcv, Hreg. simpl. by rewrite Hold.
Qed.

Lemma Register_fresh registry l m name check s :
  receiver registry s = Some l →
  registries s !! l = Some {| registeredChecks := Some m |} →
  m !! name = None →
  Register registry name check s =
    (Returned tt,
     set_registries (<[l := {| registeredChecks := Some (<[name := check]> m) |}]>
                       (registries s)) s).
Proof.
  intros Hrcv Hreg Hnew. unfold Register. run_call.
  rewrite Hrcv, Hreg. simpl.
  unfold checks_of; simpl. by rewrite Hnew.
Qed.

(** C2: registering a name that the registry already maps panics, and the
    name stays bound to the checker it had. *)
Theorem Register_existing_name_panics s l reg name old check :
  registries s !! l = Some reg →
  checks_of reg !! name = Some old →
  ∃ s', Register (Some l) name check s = (Panicked ("Check already exists: " ++ name), s')
        ∧ ∃ reg', registries s' !! l = Some reg' ∧ checks_of reg' !! name = Some old.
Proof.
  intros Hreg Hold. exists s. split.
  - by eapply Register_duplicate.
  - eauto.
Qed.

(** C10: a call of [Register] that panics, as it does on a duplicate name,
    leaves the state as it found it: no registry, and no entry of one, has
    changed. *)
Theorem Register_panic_leaves_state registry name check s msg s' :
  Register registry name check s = (Panicked msg, s') →
  s' = s.
Proof.
  unfold Register. run_call.
  destruct (receiver registry s) as [l|]; [|congruence].
  destruct (registries s !! l) as [reg|]; [|congruence]. simpl.
  destruct (checks_of reg !! name); [congruence|].
  destruct (registeredChecks reg); congruence.
Qed.

(** C9: on a nil receiver [Register] works on [DefaultRegistry]: the call
    is the call on [DefaultRegistry], and a name that is new there is
    registered there. *)
Theorem Register_nil_receiver_uses_DefaultRegistry s l m name check :
  DefaultRegistry s = Some l →
  registries s !! l = Some {| registeredChecks := Some m |} →
  m !! name = None →
  Register None name check s = Register (Some l) name check s
  ∧ Register None name check s =
      (Returned tt,
       set_registries (<[l := {| registeredChecks := Some (<[name := check]> m) |}]>
                         (registries s)) s).
Proof.
  intros Hd Hreg Hnew. split.
  - by rewrite Register_nil, Hd.
  - by apply Register_fresh.
Qed.

(** ** updater *)

(** C4: [Update(R)] followed by [Check()] returns [R]. *)
Theorem Update_then_Check s l R :
  is_Some (updaters s !! l) →
  ∃ s1, updater_Update (Some l) R s = (Returned tt, s1)
        ∧ updater_Check (Some l) s1 = (Returned R, s1)
        ∧ Check (UpdaterChecker (Some l)) s1 = (Returned R, s1).
Proof.
  intros [old Hold]. eexists. unfold updater_Update, Check, updater_Check. run_call.
  rewrite Hold. cbn. split; [reflexivity|]. cbn. rewrite lookup_insert_eq. done.
Qed.

(** ** Check *)

(** A call of [Check] changes nothing but the world. *)
Lemma Check_frame v s o s' :
  Check v s = (o, s') → s' = set_world (world s') s.
Proof.
  destruct s as [w rs us d gs lg]. destruct v as [|[body|]|[l|]]; simpl;
    unfold updater_Check; run_call.
  - by intros [= <- <-].
  - destruct (body w) as [o' w']. by intros [= <- <-].
  - by intros [= <- <-].
  - destruct (us !! l); simpl; by intros [= <- <-].
  - by intros [= <- <-].
Qed.

Lemma Check_updaters v s o s' : Check v s = (o, s') → updaters s' = updaters s.
Proof. intros H. apply Check_frame in H. rewrite H. reflexivity. Qed.

(** Whether a checker answers depends on the updaters only. *)
Lemma answers_updaters s s' v :
  updaters s' = updaters s → answers s v → answers s' v.
Proof.
  intros Hu Hv w. destruct (Hv w) as (r & s1 & Hr).
  destruct v as [|[body|]|[l|]]; simpl in *; unfold updater_Check in *; run_call;
    try congruence.
  - destruct (body w) as [o' w']. injection Hr as -> <-. eauto.
  - rewrite Hu. destruct (updaters s !! l); simpl in *; [|congruence].
    injection Hr as -> <-. eauto.
Qed.

Lemma answers_Check s v :
  answers s v → ∃ r s', Check v s = (Returned r, s').
Proof.
  intros Hv. destruct (Hv (world s)) as (r & s' & Hr).
  replace (set_world (world s) s) with s in Hr by (by destruct s). eauto.
Qed.

(** ** CheckStatus *)

Lemma range_order_elem {A} (m : gmap string A) (order : list string) :
  range_order m order → NoDup order ∧ ∀ k, k ∈ order ↔ is_Some (m !! k).
Proof.
  unfold range_order. intros Hperm. split.
  - rewrite Hperm. apply NoDup_fst_map_to_list.
  - intros k. rewrite Hperm, list_elem_of_fmap. split.
    + intros ([k' a] & -> & Hin). apply elem_of_map_to_list in Hin. eauto.
    + intros [a Ha]. exists (k, a). split; [done|]. by apply elem_of_map_to_list.
Qed.

(** The entry that [CheckStatus] makes of a [Result]. *)
Lemma CheckStatus_body_inv k v status s o s' :
  CheckStatus_body k v status s = (o, s') →
  match o with
  | Returned status' =>
      ∃ r, Check v s = (Returned r, s')
           ∧ status' = <[k := {| Healthy := is_nil (Error r); hcMessage := Message r |}]> status
  | Panicked msg => Check v s = (Panicked msg, s')
  end.
Proof.
  unfold CheckStatus_body. run_call.
  destruct (Check v s) as [[r|msg] s1]; intros [= <- <-]; eauto.
Qed.

Lemma CheckStatus_range_app checks order1 order2 status s :
  CheckStatus_range checks (order1 ++ order2) status s =
  bind (CheckStatus_range checks order1 status) (CheckStatus_range checks order2) s.
Proof.
  revert status s. induction order1 as [|k order1 IH]; intros status s; simpl.
  - reflexivity.
  - destruct (checks !! k) as [v|]; [|apply IH].
    unfold bind in *. destruct (CheckStatus_body k v status s) as [[st|msg] s1].
    + apply IH.
    + reflexivity.
Qed.

(** The loop returns when every checker does. *)
Lemma CheckStatus_range_returns checks order status s :
  (∀ k v, checks !! k = Some v → answers s v) →
  ∃ status' s', CheckStatus_range checks order status s = (Returned status', s')
                ∧ updaters s' = updaters s.
Proof.
  revert status s. induction order as [|k order IH]; intros status s Hall; simpl.
  - by exists status, s.
  - destruct (checks !! k) as [v|] eqn:Hk; [|by apply IH].
    destruct (answers_Check s v (Hall k v Hk)) as (r & s1 & Hr).
    unfold bind, CheckStatus_body, bind, ret. rewrite Hr.
    pose proof (Check_updaters _ _ _ _ Hr) as Hu.
    edestruct (IH (<[k := {| Healthy := is_nil (Error r); hcMessage := Message r |}]> status) s1)
      as (status' & s' & Hrun & Hu').
    { intros k' v' Hk'. eapply answers_updaters; [exact Hu|]. by eapply Hall. }
    exists status', s'. split; [exact Hrun|congruence].
Qed.

(** The loop writes the entries of the keys it visits, and no others. *)
Lemma CheckStatus_range_other checks order status s status' s' k :
  CheckStatus_range checks order status s = (Returned status', s') →
  k ∉ order →
  status' !! k = status !! k.
Proof.
  revert status s. induction order as [|k0 order IH]; intros status s; simpl.
  - by intros [= <- <-].
  - intros Hrun Hk. apply not_elem_of_cons in Hk as [Hne Hk].
    destruct (checks !! k0) as [v|]; [|by eapply IH].
    unfold bind in Hrun.
    destruct (CheckStatus_body k0 v status s) as [[st|msg] s1] eqn:Hbody; [|done].
    apply CheckStatus_body_inv in Hbody as (r & _ & ->).
    rewrite (IH _ _ Hrun Hk). by rewrite lookup_insert_ne.
Qed.

Lemma CheckStatus_range_dom checks order status s status' s' :
  CheckStatus_range checks order status s = (Returned status', s') →
  ∀ k, is_Some (status' !! k) ↔ is_Some (status !! k) ∨ (k ∈ order ∧ is_Some (checks !! k)).
Proof.
  revert status s. induction order as [|k0 order IH]; intros status s; simpl.
  - intros [= <- <-] k. rewrite elem_of_nil. tauto.
  - intros Hrun k. rewrite elem_of_cons.
    destruct (checks !! k0) as [v|] eqn:Hk0.
    + unfold bind in Hrun.
      destruct (CheckStatus_body k0 v status s) as [[st|msg] s1] eqn:Hbody; [|done].
      apply CheckStatus_body_inv in Hbody as (r & _ & ->).
      rewrite (IH _ _ Hrun k). rewrite lookup_insert_is_Some.
      destruct (decide (k0 = k)) as [->|Hne].
      * rewrite Hk0. intuition eauto.
      * intuition congruence.
    + rewrite (IH _ _ Hrun k). split; [tauto|].
      intros [?|[[->|?] Hs]]; [tauto| |tauto].
      rewrite Hk0 in Hs. by destruct Hs.
Qed.

(** The entry of a key is made of what its checker returned when the loop
    reached it. *)
Lemma CheckStatus_range_entry checks pre k post v status s status' s' :
  CheckStatus_range checks (pre ++ k :: post) status s = (Returned status', s') →
  k ∉ post →
  checks !! k = Some v →
  ∃ st sk r sk',
    CheckStatus_range checks pre status s = (Returned st, sk)
    ∧ Check v sk = (Returned r, sk')
    ∧ status' !! k = Some {| Healthy := is_nil (Error r); hcMessage := Message r |}.
Proof.
  intros Hrun Hpost Hk. rewrite CheckStatus_range_app in Hrun. unfold bind in Hrun.
  destruct (CheckStatus_range checks pre status s) as [[st|msg] sk]; [|done].
  simpl in Hrun. rewrite Hk in Hrun. unfold bind in Hrun.
  destruct (CheckStatus_body k v st sk) as [[st1|msg] sk'] eqn:Hbody; [|done].
  apply CheckStatus_body_inv in Hbody as (r & Hr & ->).
  exists st, sk, r, sk'. split; [done|]. split; [done|].
  rewrite (CheckStatus_range_other _ _ _ _ _ _ _ Hrun Hpost).
  apply lookup_insert_eq.
Qed.

(** A panic of a checker is the panic of the loop. *)
Lemma CheckStatus_range_panic checks pre k post v status s st sk msg sk' :
  CheckStatus_range checks pre status s = (Returned st, sk) →
  checks !! k = Some v →
  Check v sk = (Panicked msg, sk') →
  CheckStatus_range checks (pre ++ k :: post) status s = (Panicked msg, sk').
Proof.
  intros Hpre Hk Hv. rewrite CheckStatus_range_app. unfold bind at 1. rewrite Hpre.
  simpl. rewrite Hk. unfold bind, CheckStatus_body, bind. by rewrite Hv.
Qed.

(** Registering names that are new, one after the other, succeeds and binds
    each name to its checker. *)
Lemma Register_all_fresh l m (regs : list (string * Checker World)) s :
  registries s !! l = Some {| registeredChecks := Some m |} →
  NoDup regs.*1 →
  (∀ name, name ∈ regs.*1 → m !! name = None) →
  ∃ s' m',
    Register_all (Some l) regs s = (Returned tt, s')
    ∧ registries s' !! l = Some {| registeredChecks := Some m' |}
    ∧ updaters s' = updaters s
    ∧ ∀ k v, m' !! k = Some v ↔ m !! k = Some v ∨ (k, v) ∈ regs.
Proof.
  revert m s. induction regs as [|[name check] regs IH]; intros m s Hreg Hnodup Hnew.
  - exists s, m. simpl. repeat split; try done.
    + tauto.
    + intros [?|Hin]; [done|]. by apply elem_of_nil in Hin.
  - simpl in Hnodup. apply NoDup_cons in Hnodup as [Hname Hnodup].
    assert (m !! name = None) as Hm by (apply Hnew; simpl; left).
    simpl. unfold bind.
    rewrite (Register_fresh (Some l) l m name check s eq_refl Hreg Hm).
    set (s1 := set_registries _ s).
    destruct (IH (<[name := check]> m) s1) as (s' & m' & Hrun & Hreg' & Hu & Hm').
    { unfold s1; simpl. apply lookup_insert_eq. }
    { done. }
    { intros n Hn. rewrite lookup_insert_ne; [|by intros ->].
      apply Hnew. simpl. by right. }
    exists s', m'. repeat split; try done.
    + rewrite Hm'. rewrite lookup_insert_Some, elem_of_cons.
      intros [[[-> ->]|[_ ?]]|?]; auto.
    + rewrite Hm'. rewrite lookup_insert_Some, elem_of_cons.
      intros [Hk|[[= -> ->]|?]]; auto.
      left. right. split; [congruence|done].
Qed.

(** C3: after registrations under distinct names of checkers that return,
    [CheckStatus] returns a snapshot with one entry for each registered name
    and no other; the entry of a name is healthy exactly when the [Result]
    its checker returned has a nil [Error], and carries its [Message]. *)
Theorem CheckStatus_one_entry_per_name s0 (regs : list (string * Checker World))
    (order : list string) :
  NoDup regs.*1 →
  (∀ name v, (name, v) ∈ regs → answers s0 v) →
  order ≡ₚ regs.*1 →
  ∃ registry s1 s2 status s3,
    NewRegistry s0 = (Returned registry, s1)
    ∧ Register_all registry regs s1 = (Returned tt, s2)
    ∧ Registry_CheckStatus registry order s2 = (Returned status, s3)
    ∧ dom status = list_to_set regs.*1
    ∧ size status = length regs
    ∧ ∀ pre k post v, order = (pre ++ k :: post)%list → (k, v) ∈ regs →
        ∃ st sk r sk' h,
          Registry_CheckStatus registry pre s2 = (Returned st, sk)
          ∧ Check v sk = (Returned r, sk')
          ∧ status !! k = Some h
          ∧ (Healthy h = true ↔ Error r = None)
          ∧ hcMessage h = Message r.
Proof.
  intros Hnames Hans Hperm.
  assert (NoDup order) as Hnodup by (by rewrite Hperm).
  assert (∀ k, k ∈ order ↔ k ∈ regs.*1) as Horder by (intros k; by rewrite Hperm).
  set (l := fresh (dom (registries s0))).
  set (s1 := set_registries (<[l := {| registeredChecks := Some ∅ |}]> (registries s0)) s0).
  destruct (Register_all_fresh l ∅ regs s1) as (s2 & m & Hregs & Hreg & Hu & Hm).
  { unfold s1; simpl. apply lookup_insert_eq. }
  { done. }
  { intros. apply lookup_empty. }
  assert (∀ k v, m !! k = Some v ↔ (k, v) ∈ regs) as Hm'.
  { intros k v. rewrite Hm, lookup_empty. intuition congruence. }
  destruct (CheckStatus_range_returns m order ∅ s2) as (status & s3 & Hrun & _).
  { intros k v Hk. apply (answers_updaters s0); [by rewrite Hu|].
    eapply Hans. by apply Hm'. }
  assert (∀ o, Registry_CheckStatus (Some l) o s2 = CheckStatus_range m o ∅ s2) as Hcs.
  { intros o. unfold Registry_CheckStatus, bind, deref. by rewrite Hreg. }
  assert (dom status = list_to_set regs.*1) as Hdom.
  { apply set_eq. intros k. rewrite elem_of_dom, elem_of_list_to_set.
    rewrite (CheckStatus_range_dom _ _ _ _ _ _ Hrun k), lookup_empty, Horder.
    rewrite list_elem_of_fmap. split.
    - intros [[? [=]]|[Hk _]]. done.
    - intros ([k' v] & -> & Hin). right. split; [eauto|].
      exists v. by apply Hm'. }
  exists (Some l), s1, s2, status, s3. repeat split; try done.
  - by rewrite Hcs.
  - rewrite <- size_dom, Hdom, size_list_to_set, length_fmap; done.
  - intros pre k post v -> Hin.
    apply NoDup_app in Hnodup as (_ & _ & Hpost). apply NoDup_cons in Hpost as [Hpost _].
    destruct (CheckStatus_range_entry _ _ _ _ _ _ _ _ _ Hrun Hpost (proj2 (Hm' k v) Hin))
      as (st & sk & r & sk' & Hpre & Hr & Hk).
    exists st, sk, r, sk', {| Healthy := is_nil (Error r); hcMessage := Message r |}.
    rewrite Hcs. repeat split; try done; simpl.
    + by destruct (Error r).
    + by intros ->.
Qed.

(** C8, as the code has it: [CheckStatus] returns when every registered
    checker returns, and a panic inside a checker's [Check] is not caught,
    it is the panic of [CheckStatus]. *)
Theorem CheckStatus_panic_propagates s l reg (order : list string) :
  registries s !! l = Some reg →
  ((∀ k v, checks_of reg !! k = Some v → answers s v) →
   ∃ status s', Registry_CheckStatus (Some l) order s = (Returned status, s'))
  ∧ (∀ pre k post v st sk msg sk',
       order = (pre ++ k :: post)%list →
       checks_of reg !! k = Some v →
       Registry_CheckStatus (Some l) pre s = (Returned st, sk) →
       Check v sk = (Panicked msg, sk') →
       Registry_CheckStatus (Some l) order s = (Panicked msg, sk')).
Proof.
  intros Hreg.
  assert (∀ o, Registry_CheckStatus (Some l) o s = CheckStatus_range (checks_of reg) o ∅ s)
    as Hcs.
  { intros o. unfold Registry_CheckStatus, bind, deref. by rewrite Hreg. }
  split.
  - intros Hans. rewrite Hcs.
    destruct (CheckStatus_range_returns (checks_of reg) order ∅ s Hans)
      as (status & s' & Hrun & _).
    eauto.
  - intros pre k post v st sk msg sk' -> Hk Hpre Hv. rewrite Hcs in *.
    by eapply CheckStatus_range_panic.
Qed.

(** ** Periodic checks *)

(** One event: what it does to the goroutine of a periodic checker and to
    its updater. *)
Lemma exec_periodic e s s' i l check period p r :
  exec e s = (Returned tt, s') →
  periodic s i l check period p r →
  ∃ p' r',
    periodic s' i l check period p' r'
    ∧ match e with
      | NewTicker j =>
          r' = r ∧ p' = if decide (j = i)
                        then match p with AtNewTicker => AtReceive | _ => p end
                        else p
      | Tick j =>
          r' = r ∧ if decide (j = i)
                   then match p with
                        | AtReceive => ∃ x sx, Check check s = (Returned x, sx) ∧ p' = AtUpdate x
                        | _ => p' = p
                        end
                   else p' = p
      | Store j =>
          if decide (j = i)
          then match p with
               | AtUpdate x => p' = AtReceive ∧ r' = x
               | _ => p' = p ∧ r' = r
               end
          else p' = p ∧ r' = r
      end.
Proof.
  intros Hexec (Hi & Hl & Hothers).
  destruct e as [j|j|j]; unfold exec, set_pc, updater_Update in Hexec; run_call.
  - (* NewTicker *)
    destruct (decide (j = i)) as [->|Hne].
    + rewrite Hi in Hexec. destruct p as [| |x].
      * destruct (decide (period ≤ 0)%Z); [done|]. injection Hexec as <-.
        exists AtReceive, r. split; [|done]. split; [|split]; simpl.
        -- rewrite list_lookup_alter_eq, Hi. done.
        -- done.
        -- intros j g Hj. rewrite list_lookup_alter_ne by done. by apply Hothers.
      * injection Hexec as <-. exists AtReceive, r. by repeat split.
      * injection Hexec as <-. exists (AtUpdate x), r. by repeat split.
    + exists p, r. split; [|done].
      destruct (goroutines s !! j) as [[uj cj pj [| |x]]|] eqn:Hj;
        try (injection Hexec as <-; by repeat split).
      destruct (decide (pj ≤ 0)%Z); [done|]. injection Hexec as <-.
      split; [|split]; simpl.
      * rewrite list_lookup_alter_ne by done. done.
      * done.
      * intros j' g Hj'. rewrite list_lookup_alter.
        destruct (decide (j = j')) as [<-|]; [|by apply Hothers].
        rewrite Hj. simpl. intros [= <-]. simpl.
        by apply (Hothers j _ Hne Hj).
  - (* Tick *)
    destruct (decide (j = i)) as [->|Hne].
    + rewrite Hi in Hexec. destruct p as [| |x].
      * injection Hexec as <-. exists AtNewTicker, r. by repeat split.
      * destruct (Check check s) as [[x|msg] sx] eqn:Hx; [|done].
        injection Hexec as <-.
        pose proof (Check_frame _ _ _ _ Hx) as Hsx.
        exists (AtUpdate x), r. split; [|eauto].
        rewrite Hsx. split; [|split]; simpl.
        -- rewrite list_lookup_alter_eq, Hi. done.
        -- done.
        -- intros j g Hj. rewrite list_lookup_alter_ne by done. by apply Hothers.
      * injection Hexec as <-. exists (AtUpdate x), r. by repeat split.
    + exists p, r. split; [|done].
      destruct (goroutines s !! j) as [[uj cj pj [| |x]]|] eqn:Hj;
        try (injection Hexec as <-; by repeat split).
      destruct (Check cj s) as [[x|msg] sx] eqn:Hx; [|done].
      injection Hexec as <-.
      pose proof (Check_frame _ _ _ _ Hx) as Hsx. rewrite Hsx.
      split; [|split]; simpl.
      * rewrite list_lookup_alter_ne by done. done.
      * done.
      * intros j' g Hj'. rewrite list_lookup_alter.
        destruct (decide (j = j')) as [<-|]; [|by apply Hothers].
        rewrite Hj. simpl. intros [= <-]. simpl.
        by apply (Hothers j _ Hne Hj).
  - (* Store *)
    destruct (decide (j = i)) as [->|Hne].
    + rewrite Hi in Hexec. destruct p as [| |x].
      * injection Hexec as <-. exists AtNewTicker, r. by repeat split.
      * injection Hexec as <-. exists AtReceive, r. by repeat split.
      * rewrite Hl in Hexec. simpl in Hexec. injection Hexec as <-.
        exists AtReceive, x. split; [|done]. split; [|split]; simpl.
        -- rewrite list_lookup_alter_eq, Hi. done.
        -- apply lookup_insert_eq.
        -- intros j g Hj. rewrite list_lookup_alter_ne by done. by apply Hothers.
    + exists p, r. split; [|done].
      destruct (goroutines s !! j) as [[uj cj pj [| |x]]|] eqn:Hj;
        try (injection Hexec as <-; by repeat split).
      pose proof (Hothers j _ Hne Hj) as Huj. simpl in Huj.
      destruct uj as [lj|]; [|done].
      destruct (updaters s !! lj) eqn:Hlj; [|done]. simpl in Hexec.
      injection Hexec as <-.
      split; [|split]; simpl.
      * rewrite list_lookup_alter_ne by done. done.
      * rewrite lookup_insert_ne by congruence. done.
      * intros j' g Hj'. rewrite list_lookup_alter.
        destruct (decide (j = j')) as [<-|]; [|by apply Hothers].
        rewrite Hj. simpl. intros [= <-]. simpl. done.
Qed.

Lemma periodic_Check s i l check period p r :
  periodic s i l check period p r →
  Check (UpdaterChecker (Some l)) s = (Returned r, s).
Proof.
  intros (_ & Hl & _). simpl. unfold updater_Check. run_call. by rewrite Hl.
Qed.

(** What [PeriodicChecker] sets up. *)
Lemma PeriodicChecker_periodic check (period : Z) s0 :
  goroutines_allocated s0 →
  ∃ l s1,
    PeriodicChecker check period s0 = (Returned (UpdaterChecker (Some l)), s1)
    ∧ world s1 = world s0
    ∧ periodic s1 (length (goroutines s0)) l check period AtNewTicker zero_Result.
Proof.
  intros Halloc. unfold PeriodicChecker, NewStatusUpdater. run_call.
  do 2 eexists. split; [reflexivity|]. split; [reflexivity|].
  split; [|split]; simpl.
  - by apply list_lookup_middle.
  - apply lookup_insert_eq.
  - intros j g Hj Hg.
    apply lookup_app_Some in Hg as [Hg|[Hlen Hg]].
    + destruct (Halloc g) as (l' & Hu & Hl').
      { apply list_elem_of_lookup. eauto. }
      rewrite Hu. intros [= ->].
      apply elem_of_dom in Hl'. by apply is_fresh in Hl'.
    + destruct (j - length (goroutines s0)) as [|n] eqn:Hn; [lia|].
      by destruct n.
Qed.

(** ** The HTTP handler *)

Context (json_Marshal : payload → string + string).

(** The flag is set exactly when the loop meets an unhealthy entry. *)
Lemma isFailing_range_true (checks : Status) (order : list string) (isFailing : bool) :
  isFailing_range checks order isFailing = true ↔
  isFailing = true ∨ ∃ k h, k ∈ order ∧ checks !! k = Some h ∧ Healthy h = false.
Proof.
  revert isFailing. induction order as [|k0 order IH]; intros acc; simpl.
  - split; [auto|]. intros [?|(k & h & Hin & _)]; [done|]. by apply elem_of_nil in Hin.
  - destruct (checks !! k0) as [h0|] eqn:Hk0; rewrite IH; clear IH.
    + split.
      * intros [Hacc|(k & h & Hin & Hk & Hh)].
        -- destruct (Healthy h0) eqn:Hh0; simpl in Hacc; [auto|].
           right. exists k0, h0. rewrite elem_of_cons. auto.
        -- right. exists k, h. rewrite elem_of_cons. auto.
      * intros [->|(k & h & Hin & Hk & Hh)].
        -- left. by destruct (Healthy h0).
        -- apply elem_of_cons in Hin as [->|Hin].
           ++ left. rewrite Hk0 in Hk. injection Hk as ->. by rewrite Hh.
           ++ right. eauto.
    + split.
      * intros [?|(k & h & Hin & Hk & Hh)]; [auto|].
        right. exists k, h. rewrite elem_of_cons. auto.
      * intros [?|(k & h & Hin & Hk & Hh)]; [auto|].
        apply elem_of_cons in Hin as [->|Hin]; [congruence|]. right. eauto.
Qed.

(** What [statusResponse] sends once the body is encoded. *)
Lemma statusResponse_encoded w r (status : Z) (checks : Status) p s :
  code w = None →
  json_Marshal (StatusPayload checks) = inl p →
  ∃ w' s', statusResponse json_Marshal w r status checks s = (Returned w', s')
           ∧ code w' = Some status
           ∧ (conn_error w = None → body w' = body w ++ p).
Proof.
  intros Hcode Hp. unfold statusResponse. rewrite Hp.
  unfold Write, WriteHeader, Header_Set; simpl. rewrite Hcode; simpl.
  destruct (conn_error w) as [e|]; run_call; eauto.
  do 2 eexists. split; [reflexivity|]. split; [done|]. done.
Qed.

(** C1: a GET request whose [Status] was computed and encoded is answered
    with 503 when some entry is unhealthy and with 200 when every entry is
    healthy, which includes the empty [Status]. *)
Theorem StatusHandler_GET_status_code w r (order order' : list string) s
    (checks : Status) s1 p :
  Method r = "GET" →
  code w = None →
  CheckStatus order s = (Returned checks, s1) →
  range_order checks order' →
  json_Marshal (StatusPayload checks) = inl p →
  ∃ w' s2,
    StatusHandler json_Marshal w r order order' s = (Returned w', s2)
    ∧ ((∃ k h, checks !! k = Some h ∧ Healthy h = false) → code w' = Some 503%Z)
    ∧ ((∀ k h, checks !! k = Some h → Healthy h = true) → code w' = Some 200%Z).
Proof.
  intros HGET Hcode Hchecks Horder Hp. apply range_order_elem in Horder as [_ Horder].
  unfold StatusHandler.
  rewrite decide_True by done. unfold bind at 1. rewrite Hchecks.
  set (status := if isFailing_range checks order' false then _ else _).
  destruct (statusResponse_encoded w r status checks p s1 Hcode Hp)
    as (w' & s2 & Hrun & Hcode' & _).
  exists w', s2. split; [exact Hrun|]. rewrite Hcode'. unfold status. split.
  - intros (k & h & Hk & Hh).
    assert (isFailing_range checks order' false = true) as ->; [|done].
    apply isFailing_range_true. right. exists k, h. split; [|done].
    apply Horder. eauto.
  - intros Hall.
    destruct (isFailing_range checks order' false) eqn:Hf; [|done].
    apply isFailing_range_true in Hf as [?|(k & h & _ & Hk & Hh)]; [done|].
    rewrite (Hall k h Hk) in Hh. done.
Qed.

(** C6, as the code has it: a request with another method is answered by
    [http.NotFound], with 404 and the body ["404 page not found"] followed
    by a line feed; no check is evaluated and nothing is logged. *)
Theorem StatusHandler_other_method_NotFound r (order order' : list string) s :
  Method r ≠ "GET" →
  ∃ w', StatusHandler json_Marshal new_ResponseWriter r order order' s = (Returned w', s)
        ∧ code w' = Some 404%Z
        ∧ body w' = "404 page not found" ++ newline.
Proof.
  intros Hm. unfold StatusHandler. rewrite decide_False by done.
  eexists. split; [reflexivity|]. split; reflexivity.
Qed.

(** C7: when [json.Marshal] fails on the [Status], the reply is 500 with
    the encoding of the struct whose [server_error] field is
    ["Could not parse error message"]; when that encoding fails too, the
    writer is left untouched and the two errors are logged. *)
Theorem statusResponse_fallback w r (status : Z) (checks : Status) s err :
  code w = None →
  conn_error w = None →
  json_Marshal (StatusPayload checks) = inr err →
  (∀ p, json_Marshal (ServerErrorPayload "Could not parse error message") = inl p →
        ∃ w', statusResponse json_Marshal w r status checks s =
                (Returned w', log_Printf ("error serializing health status: " ++ err) s)
              ∧ code w' = Some 500%Z
              ∧ body w' = body w ++ p)
  ∧ (∀ err', json_Marshal (ServerErrorPayload "Could not parse error message") = inr err' →
        statusResponse json_Marshal w r status checks s =
          (Returned w,
           log_Printf ("error serializing health status failure message: " ++ err')
             (log_Printf ("error serializing health status: " ++ err) s))).
Proof.
  intros Hcode Hconn Herr. unfold statusResponse. rewrite Herr. split.
  - intros p Hp. rewrite Hp.
    unfold Write, WriteHeader, Header_Set; simpl. rewrite Hcode; simpl. rewrite Hconn.
    eexists. split; [reflexivity|]. split; reflexivity.
  - intros err' Herr'. rewrite Herr'. reflexivity.
Qed.

(** * Further properties *)

(** ** What a call leaves unchanged *)

Lemma set_world_set_world w1 w2 s : set_world w2 (set_world w1 s) = set_world w2 s.
Proof. reflexivity. Qed.

Lemma CheckStatus_range_frame checks (order : list string) (status : Status) s :
  snd (CheckStatus_range checks order status s)
  = set_world (world (snd (CheckStatus_range checks order status s))) s.
Proof.
  revert status s. induction order as [|k order IH]; intros status s; simpl.
  - by destruct s.
  - destruct (checks !! k) as [v|]; [|apply IH].
    unfold bind, CheckStatus_body, bind, ret.
    destruct (Check v s) as [[r|msg] s1] eqn:Hr; apply Check_frame in Hr; simpl.
    + rewrite IH. rewrite Hr at 2. reflexivity.
    + exact Hr.
Qed.

(** ** init and NewRegistry *)

(** X2: [init] makes [DefaultRegistry] a new registry, at an address no
    registry had, with no checks; [CheckStatus] then returns the empty
    [Status] and existing registries are as before. *)
Theorem init_gives_empty_DefaultRegistry s (order : list string) :
  ∃ l s1,
    init s = (Returned tt, s1)
    ∧ registries s !! l = None
    ∧ DefaultRegistry s1 = Some l
    ∧ registries s1 !! l = Some {| registeredChecks := Some ∅ |}
    ∧ (∀ l', l' ≠ l → registries s1 !! l' = registries s !! l')
    ∧ CheckStatus order s1 = (Returned ∅, s1).
Proof.
  exists (fresh (dom (registries s))). eexists. unfold init, NewRegistry. run_call.
  split; [reflexivity|]. split; [|split; [reflexivity|split; [|split]]].
  - apply not_elem_of_dom. apply is_fresh.
  - apply lookup_insert_eq.
  - intros l' Hl'. simpl. by rewrite lookup_insert_ne.
  - unfold CheckStatus, Registry_CheckStatus. run_call. rewrite lookup_insert_eq. simpl.
    unfold checks_of; simpl. clear. induction order as [|k order IH]; [reflexivity|].
    simpl. rewrite lookup_empty. exact IH.
Qed.

(** ** Register *)

Lemma Register_inv registry name check s s' :
  Register registry name check s = (Returned tt, s') →
  ∃ l m, receiver registry s = Some l
         ∧ registries s !! l = Some {| registeredChecks := Some m |}
         ∧ m !! name = None
         ∧ s' = set_registries
                  (<[l := {| registeredChecks := Some (<[name := check]> m) |}]> (registries s)) s.
Proof.
  intros Hrun. pose proof Hrun as Hrun'. unfold Register in Hrun. run_call.
  destruct (receiver registry s) as [l|] eqn:Hrcv; [|done].
  destruct (registries s !! l) as [[[m|]]|] eqn:Hreg; simpl in Hrun; [| |done].
  - unfold checks_of in Hrun; simpl in Hrun.
    destruct (m !! name) eqn:Hname; [done|]. exists l, m. repeat split; try done.
    rewrite (Register_fresh registry l m name check s Hrcv Hreg Hname) in Hrun'.
    by injection Hrun' as <-.
  - unfold checks_of in Hrun; simpl in Hrun. by rewrite lookup_empty in Hrun.
Qed.

(** [Register] touches the registries only. *)
Lemma Register_frame registry name check s :
  let s' := snd (Register registry name check s) in
  updaters s' = updaters s ∧ goroutines s' = goroutines s.
Proof.
  unfold Register. run_call.
  destruct (receiver registry s) as [l|]; [|done].
  destruct (registries s !! l) as [reg|]; [|done]. simpl.
  destruct (checks_of reg !! name); [done|].
  by destruct (registeredChecks reg).
Qed.

(** X3: [Register] returns exactly when its receiver (or [DefaultRegistry]
    for a nil receiver) is a registry with an allocated map that does not
    have the name; in every other case it panics. *)
Theorem Register_returns_iff registry name check s :
  (∃ s', Register registry name check s = (Returned tt, s'))
  ↔ ∃ l m, receiver registry s = Some l
           ∧ registries s !! l = Some {| registeredChecks := Some m |}
           ∧ m !! name = None.
Proof.
  split.
  - intros (s' & Hrun). apply Register_inv in Hrun as (l & m & ? & ? & ? & _). eauto.
  - intros (l & m & Hrcv & Hreg & Hname). eexists. by eapply Register_fresh.
Qed.

(** X4: after a [Register] that returned, the name is bound to the checker
    in that registry, every other name of it is bound as before, and the
    other registries, the updaters, the world and the goroutines are
    untouched. *)
Theorem Register_binds_name_only registry name check s s' :
  Register registry name check s = (Returned tt, s') →
  ∃ l reg reg',
    receiver registry s = Some l
    ∧ registries s !! l = Some reg
    ∧ registries s' !! l = Some reg'
    ∧ checks_of reg' !! name = Some check
    ∧ (∀ k, k ≠ name → checks_of reg' !! k = checks_of reg !! k)
    ∧ (∀ l', l' ≠ l → registries s' !! l' = registries s !! l')
    ∧ updaters s' = updaters s ∧ world s' = world s
    ∧ goroutines s' = goroutines s ∧ DefaultRegistry s' = DefaultRegistry s.
Proof.
  intros Hrun. apply Register_inv in Hrun as (l & m & Hrcv & Hreg & Hname & ->).
  exists l, {| registeredChecks := Some m |}, {| registeredChecks := Some (<[name := check]> m) |}.
  simpl. repeat split; try done.
  - apply lookup_insert_eq.
  - unfold checks_of; simpl. apply lookup_insert_eq.
  - intros k Hk. unfold checks_of; simpl. by rewrite lookup_insert_ne.
  - intros l' Hl'. by rewrite lookup_insert_ne.
Qed.

(** X5: a zero-value [Registry], whose map is nil, can be read but not
    written: [CheckStatus] returns the empty [Status], and [Register] panics
    on the assignment to the nil map, for every name. *)
Theorem zero_value_Registry s l name check (order : list string) :
  registries s !! l = Some {| registeredChecks := None |} →
  Registry_CheckStatus (Some l) order s = (Returned ∅, s)
  ∧ Register (Some l) name check s = (Panicked nil_map_assignment, s).
Proof.
  intros Hreg. split.
  - unfold Registry_CheckStatus. run_call. rewrite Hreg. simpl.
    unfold checks_of; simpl. clear. induction order as [|k order IH]; [reflexivity|].
    simpl. rewrite lookup_empty. exact IH.
  - unfold Register, receiver. run_call. rewrite Hreg. simpl.
    unfold checks_of; simpl. by rewrite lookup_empty.
Qed.

(** ** The order of the loop of CheckStatus *)

Lemma CheckStatus_range_read_only checks (order : list string) (status : Status) s :
  (∀ k v, checks !! k = Some v → read_only v) →
  snd (CheckStatus_range checks order status s) = s.
Proof.
  intros Hro. revert status. induction order as [|k order IH]; intros status; simpl.
  - reflexivity.
  - destruct (checks !! k) as [v|] eqn:Hk; [|apply IH].
    unfold bind, CheckStatus_body, bind, ret.
    pose proof (Hro k v Hk s) as Hs.
    destruct (Check v s) as [[r|msg] s1]; simpl in Hs; subst s1; [apply IH|reflexivity].
Qed.

Lemma CheckStatus_range_read_only_entry checks (order : list string) (status status' : Status)
    s s' k v :
  (∀ k v, checks !! k = Some v → read_only v) →
  CheckStatus_range checks order status s = (Returned status', s') →
  k ∈ order →
  checks !! k = Some v →
  ∃ r, Check v s = (Returned r, s)
       ∧ status' !! k = Some {| Healthy := is_nil (Error r); hcMessage := Message r |}.
Proof.
  intros Hro Hrun Hin Hk.
  apply list_elem_of_split_r in Hin as (pre & post & -> & Hpost).
  destruct (CheckStatus_range_entry _ _ _ _ _ _ _ _ _ Hrun Hpost Hk)
    as (st & sk & r & sk' & Hpre & Hr & Hentry).
  pose proof (CheckStatus_range_read_only checks pre status s Hro) as Hsk.
  rewrite Hpre in Hsk. simpl in Hsk. subst sk.
  pose proof (Hro k v Hk s) as Hsk'. rewrite Hr in Hsk'. simpl in Hsk'. subst sk'.
  eauto.
Qed.

Lemma CheckStatus_range_read_only_returns checks (order : list string) (status : Status) s :
  (∀ k v, checks !! k = Some v → read_only v) →
  (∀ k v, k ∈ order → checks !! k = Some v → ∃ r, Check v s = (Returned r, s)) →
  ∃ status', CheckStatus_range checks order status s = (Returned status', s).
Proof.
  intros Hro. revert status. induction order as [|k order IH]; intros status Hans; simpl.
  - by exists status.
  - assert (∀ k' v, k' ∈ order → checks !! k' = Some v → ∃ r, Check v s = (Returned r, s))
      as Hans' by (intros k' v Hin; apply Hans; by right).
    destruct (checks !! k) as [v|] eqn:Hk; [|by apply IH].
    destruct (Hans k v) as (r & Hr); [by left|done|].
    unfold bind, CheckStatus_body, bind, ret. rewrite Hr. by apply IH.
Qed.

(** X6: when no registered checker changes the program (updaters, periodic
    checkers, check functions that only observe), the snapshot does not
    depend on the order in which [range] visits the map: a [CheckStatus]
    that returned would return the same [Status] in any other order, and
    leaves the state as it was. *)
Theorem CheckStatus_order_irrelevant s l reg (order1 order2 : list string)
    (status : Status) s1 :
  registries s !! l = Some reg →
  (∀ k v, checks_of reg !! k = Some v → read_only v) →
  range_order (checks_of reg) order1 →
  range_order (checks_of reg) order2 →
  Registry_CheckStatus (Some l) order1 s = (Returned status, s1) →
  s1 = s ∧ Registry_CheckStatus (Some l) order2 s = (Returned status, s).
Proof.
  intros Hreg Hro Ho1 Ho2 Hrun.
  apply range_order_elem in Ho1 as [_ Ho1]. apply range_order_elem in Ho2 as [_ Ho2].
  assert (∀ o, Registry_CheckStatus (Some l) o s = CheckStatus_range (checks_of reg) o ∅ s)
    as Hcs.
  { intros o. unfold Registry_CheckStatus, bind, deref. by rewrite Hreg. }
  rewrite Hcs in *.
  pose proof (CheckStatus_range_read_only (checks_of reg) order1 ∅ s Hro) as Hs1.
  rewrite Hrun in Hs1. simpl in Hs1. subst s1. split; [done|].
  destruct (CheckStatus_range_read_only_returns (checks_of reg) order2 ∅ s Hro)
    as (status2 & Hrun2).
  { intros k v Hin Hk.
    destruct (CheckStatus_range_read_only_entry _ _ _ _ _ _ k v Hro Hrun) as (r & Hr & _);
      [apply Ho1; eauto|done|eauto]. }
  rewrite Hrun2. f_equal. f_equal. apply map_eq. intros k.
  destruct (checks_of reg !! k) as [v|] eqn:Hk.
  - destruct (CheckStatus_range_read_only_entry _ _ _ _ _ _ k v Hro Hrun) as (r & Hr & ->);
      [apply Ho1; eauto|done|].
    destruct (CheckStatus_range_read_only_entry _ _ _ _ _ _ k v Hro Hrun2) as (r2 & Hr2 & ->);
      [apply Ho2; eauto|done|].
    rewrite Hr in Hr2. by injection Hr2 as <-.
  - pose proof (CheckStatus_range_dom _ _ _ _ _ _ Hrun k) as H1.
    pose proof (CheckStatus_range_dom _ _ _ _ _ _ Hrun2 k) as H2.
    rewrite Hk, lookup_empty in H1, H2.
    destruct (status2 !! k) as [h2|] eqn:E2.
    { destruct (proj1 H2 (mk_is_Some _ _ eq_refl)) as [[? [=]]|[_ [? [=]]]]. }
    destruct (status !! k) as [h1|] eqn:E1; [|done].
    destruct (proj1 H1 (mk_is_Some _ _ eq_refl)) as [[? [=]]|[_ [? [=]]]].
Qed.

(** ** updater *)

(** X7: [NewStatusUpdater] returns an updater that no existing one
    aliases; it reads as the zero [Result] (nil error, empty message), and
    the updaters that existed hold what they held. *)
Theorem NewStatusUpdater_fresh_zero s :
  ∃ l s1,
    NewStatusUpdater s = (Returned (Some l), s1)
    ∧ updaters s !! l = None
    ∧ Check (UpdaterChecker (Some l)) s1 = (Returned zero_Result, s1)
    ∧ ∀ l', l' ≠ l → updaters s1 !! l' = updaters s !! l'.
Proof.
  exists (fresh (dom (updaters s))). eexists. unfold NewStatusUpdater.
  split; [reflexivity|]. split; [|split].
  - apply not_elem_of_dom. apply is_fresh.
  - simpl. unfold updater_Check. run_call. by rewrite lookup_insert_eq.
  - intros l' Hl'. simpl. by rewrite lookup_insert_ne.
Qed.

(** X8: [Update] writes one updater: the last of two updates is what
    [Check] returns, and every other updater reads as before. *)
Theorem Update_last_writer_wins s l R1 R2 :
  is_Some (updaters s !! l) →
  ∃ s1 s2,
    updater_Update (Some l) R1 s = (Returned tt, s1)
    ∧ updater_Update (Some l) R2 s1 = (Returned tt, s2)
    ∧ updater_Check (Some l) s2 = (Returned R2, s2)
    ∧ ∀ l', l' ≠ l → fst (updater_Check (Some l') s2) = fst (updater_Check (Some l') s).
Proof.
  intros [old Hold]. unfold updater_Update, updater_Check. run_call.
  rewrite Hold. simpl. do 2 eexists. split; [reflexivity|]. simpl.
  rewrite lookup_insert_eq. simpl. split; [reflexivity|]. simpl.
  rewrite lookup_insert_eq. simpl. split; [reflexivity|].
  intros l' Hl'. rewrite !lookup_insert_ne by done.
  by destruct (updaters s !! l').
Qed.

(** ** Periodic checks, registered *)

Lemma PeriodicChecker_state check (period : Z) s :
  PeriodicChecker check period s =
    (Returned (UpdaterChecker (Some (fresh (dom (updaters s))))),
     set_goroutines
       (goroutines s ++ [mkGoroutine (Some (fresh (dom (updaters s)))) check period AtNewTicker])
       (set_updaters (<[fresh (dom (updaters s)) := zero_Result]> (updaters s)) s)).
Proof. reflexivity. Qed.

(** X9: [RegisterPeriodicFunc] builds the periodic checker before it
    registers it: under a name that is taken it panics like [Register], but
    the updater has been allocated and the goroutine started, and they stay;
    the registry is unchanged. *)
Theorem RegisterPeriodicFunc_duplicate_keeps_goroutine registry l reg name old
    (period : Z) (check : CheckFunc World) s :
  receiver registry s = Some l →
  registries s !! l = Some reg →
  checks_of reg !! name = Some old →
  ∃ (lu : loc) s',
    RegisterPeriodicFunc registry name period check s =
      (Panicked ("Check already exists: " ++ name), s')
    ∧ registries s' = registries s
    ∧ updaters s !! lu = None
    ∧ updaters s' !! lu = Some zero_Result
    ∧ goroutines s' =
        (goroutines s ++ [mkGoroutine (Some lu) (FuncChecker check) period AtNewTicker])%list.
Proof.
  intros Hrcv Hreg Hold. exists (fresh (dom (updaters s))). eexists.
  unfold RegisterPeriodicFunc, bind. rewrite PeriodicChecker_state.
  erewrite Register_duplicate; [| |exact Hreg|exact Hold].
  - split; [reflexivity|]. split; [reflexivity|]. split; [|split; [|reflexivity]].
    + apply not_elem_of_dom. apply is_fresh.
    + simpl. apply lookup_insert_eq.
  - destruct registry; exact Hrcv.
Qed.

(** X10: a periodic check registered under a new name is not evaluated by
    the registration, and until its goroutine stores a value every
    [CheckStatus] that returns reports the name healthy with an empty
    message. *)
Theorem RegisterPeriodicFunc_reports_healthy_at_first registry l m name
    (period : Z) (check : CheckFunc World) s :
  receiver registry s = Some l →
  registries s !! l = Some {| registeredChecks := Some m |} →
  m !! name = None →
  ∃ s1,
    RegisterPeriodicFunc registry name period check s = (Returned tt, s1)
    ∧ world s1 = world s
    ∧ ∀ (order : list string) (status : Status) s2,
        name ∈ order →
        Registry_CheckStatus (Some l) order s1 = (Returned status, s2) →
        status !! name = Some {| Healthy := true; hcMessage := EmptyString |}.
Proof.
  intros Hrcv Hreg Hname. eexists.
  unfold RegisterPeriodicFunc, bind. rewrite PeriodicChecker_state.
  erewrite Register_fresh; [| |exact Hreg|exact Hname].
  2:{ destruct registry; exact Hrcv. }
  split; [reflexivity|]. split; [reflexivity|].
  intros order status s2 Hin Hrun.
  unfold Registry_CheckStatus, bind, deref in Hrun. simpl in Hrun.
  rewrite lookup_insert_eq in Hrun. unfold checks_of in Hrun; simpl in Hrun.
  apply list_elem_of_split_r in Hin as (pre & post & -> & Hpost).
  destruct (CheckStatus_range_entry _ pre name post
               (UpdaterChecker (Some (fresh (dom (updaters s))))) _ _ _ _ Hrun Hpost)
    as (st & sk & r & sk' & Hpre & Hr & ->).
  { apply lookup_insert_eq. }
  match type of Hpre with
  | CheckStatus_range ?c ?o ?st0 ?s0 = _ =>
      pose proof (CheckStatus_range_frame c o st0 s0) as Hsk
  end.
  rewrite Hpre in Hsk. simpl in Hsk.
  rewrite Hsk in Hr. simpl in Hr. unfold updater_Check in Hr. run_call.
  rewrite lookup_insert_eq in Hr. simpl in Hr. by injection Hr as <- _.
Qed.

(** ** The goroutines *)

Lemma exec_unchanged e s :
  let s' := snd (exec e s) in
  registries s' = registries s
  ∧ DefaultRegistry s' = DefaultRegistry s
  ∧ logged s' = logged s
  ∧ dom (updaters s') = dom (updaters s)
  ∧ ∀ i, (λ g, (g_u g, g_check g, g_period g)) <$> goroutines s' !! i
         = (λ g, (g_u g, g_check g, g_period g)) <$> goroutines s !! i.
Proof.
  assert (∀ p j i,
            (λ g, (g_u g, g_check g, g_period g)) <$>
              alter (λ g, mkGoroutine (g_u g) (g_check g) (g_period g) p) j (goroutines s) !! i
            = (λ g, (g_u g, g_check g, g_period g)) <$> goroutines s !! i) as Halter.
  { intros p j i. rewrite list_lookup_alter.
    destruct (decide (j = i)) as [->|]; [|done]. by destruct (goroutines s !! i). }
  destruct e as [j|j|j]; unfold exec, set_pc, updater_Update; run_call;
    destruct (goroutines s !! j) as [[uj cj pj [| |x]]|] eqn:Hj; simpl; try done.
  - destruct (decide (pj ≤ 0)%Z); simpl; [done|]. repeat split; first [done|apply Halter].
  - destruct (Check cj s) as [[x|msg] sx] eqn:Hx; apply Check_frame in Hx; rewrite Hx; simpl.
    + repeat split; first [done|apply Halter].
    + done.
  - destruct uj as [lj|]; simpl; [|done].
    destruct (updaters s !! lj) as [old|] eqn:Hlj; simpl; [|done].
    split; [done|]. split; [done|]. split; [done|]. split; [|apply Halter].
    apply dom_insert_lookup_L. eauto.
Qed.

Lemma run_unchanged (tr : list event) s :
  let s' := snd (run tr s) in
  registries s' = registries s
  ∧ DefaultRegistry s' = DefaultRegistry s
  ∧ logged s' = logged s
  ∧ dom (updaters s') = dom (updaters s)
  ∧ ∀ i, (λ g, (g_u g, g_check g, g_period g)) <$> goroutines s' !! i
         = (λ g, (g_u g, g_check g, g_period g)) <$> goroutines s !! i.
Proof.
  revert s. induction tr as [|e tr IH]; intros s; simpl; [done|].
  unfold bind. pose proof (exec_unchanged e s) as He.
  destruct (exec e s) as [[[]|msg] s1]; simpl in He; [|exact He].
  specialize (IH s1). simpl in IH.
  destruct He as (E1 & E2 & E3 & E4 & E5), IH as (I1 & I2 & I3 & I4 & I5).
  split; [congruence|]. split; [congruence|]. split; [congruence|]. split; [congruence|].
  intros i. rewrite I5. apply E5.
Qed.

(** X12: that every goroutine holds an updater that exists is an invariant:
    it holds when no goroutine runs, and [PeriodicChecker], the events of
    the goroutines, [Register] and [CheckStatus] keep it. *)
Theorem goroutines_allocated_invariant s :
  (goroutines s = [] → goroutines_allocated s)
  ∧ (goroutines_allocated s →
     (∀ check (period : Z), goroutines_allocated (snd (PeriodicChecker check period s)))
     ∧ (∀ tr : list event, goroutines_allocated (snd (run tr s)))
     ∧ (∀ registry name check, goroutines_allocated (snd (Register registry name check s)))
     ∧ (∀ registry (order : list string),
          goroutines_allocated (snd (Registry_CheckStatus registry order s)))).
Proof.
  split.
  { intros Hnil g Hg. rewrite Hnil in Hg. by apply elem_of_nil in Hg. }
  intros Halloc. split; [|split; [|split]].
  - intros check period. rewrite PeriodicChecker_state. simpl.
    intros g Hg. simpl in Hg. apply elem_of_app in Hg as [Hg|Hg].
    + destruct (Halloc g Hg) as (l & Hu & Hl). exists l. split; [done|]. simpl.
      rewrite lookup_insert_is_Some. destruct (decide (fresh (dom (updaters s)) = l)); auto.
    + apply list_elem_of_singleton in Hg as ->. eexists. split; [reflexivity|]. simpl.
      rewrite lookup_insert_eq. eauto.
  - intros tr g Hg. destruct (run_unchanged tr s) as (_ & _ & _ & Hdom & Hgs).
    apply list_elem_of_lookup in Hg as [i Hi].
    specialize (Hgs i). rewrite Hi in Hgs. simpl in Hgs.
    destruct (goroutines s !! i) as [g0|] eqn:Hi0; [|done]. injection Hgs as Hu _ _.
    destruct (Halloc g0) as (l & Hu0 & Hl); [apply list_elem_of_lookup; eauto|].
    exists l. split; [congruence|]. apply elem_of_dom. rewrite Hdom. by apply elem_of_dom.
  - intros registry name check.
    destruct (Register_frame registry name check s) as (Hu & Hg).
    intros g. rewrite Hg, Hu. apply Halloc.
  - intros registry order. unfold Registry_CheckStatus, bind, deref.
    destruct registry as [l|]; [|done].
    destruct (registries s !! l) as [reg|]; [|done].
    simpl. rewrite CheckStatus_range_frame. exact Halloc.
Qed.

(** X13: the first step of the goroutine of a periodic checker is
    [time.NewTicker(period)]: with a period that is not positive it panics,
    which ends the process, whatever was to follow; with a positive period
    the goroutine goes on to wait for a tick, and the wrapped checker has
    still not been evaluated. *)
Theorem PeriodicChecker_NewTicker check (period : Z) s0 :
  ∃ c s1, let g := length (goroutines s0) in
    PeriodicChecker check period s0 = (Returned c, s1)
    ∧ ((period ≤ 0)%Z →
       ∀ tr : list event,
         run (NewTicker g :: tr) s1 = (Panicked "non-positive interval for NewTicker", s1))
    ∧ ((0 < period)%Z →
       ∃ s2, exec (NewTicker g) s1 = (Returned tt, s2)
             ∧ world s2 = world s0
             ∧ updaters s2 = updaters s1
             ∧ g_pc <$> goroutines s2 !! g = Some AtReceive).
Proof.
  do 2 eexists. simpl. rewrite PeriodicChecker_state. split; [reflexivity|].
  set (g := mkGoroutine _ check period AtNewTicker).
  assert ((goroutines s0 ++ [g])%list !! length (goroutines s0) = Some g) as Hg
    by (by apply list_lookup_middle).
  split.
  - intros Hp tr. simpl. unfold bind at 1. unfold exec. run_call. rewrite Hg. simpl.
    by rewrite decide_True.
  - intros Hp. unfold exec, set_pc. run_call. rewrite Hg. simpl.
    rewrite decide_False by lia. eexists. split; [reflexivity|]. simpl.
    split; [done|]. split; [done|]. by rewrite list_lookup_alter_eq, Hg.
Qed.

(** X14: a panic of the wrapped checker at a tick is not recovered in the
    goroutine: it ends the run, whatever was to follow, although [Check] on
    the periodic checker itself returns the stored [Result]. *)
Theorem Tick_panic_ends_run s i l check (period : Z) r msg s' (tr : list event) :
  periodic s i l check period AtReceive r →
  Check check s = (Panicked msg, s') →
  run (Tick i :: tr) s = (Panicked msg, s')
  ∧ Check (UpdaterChecker (Some l)) s = (Returned r, s).
Proof.
  intros Hper Hpanic. split; [|by eapply periodic_Check].
  destruct Hper as (Hi & _). simpl. unfold bind at 1. unfold exec. run_call.
  rewrite Hi. simpl. by rewrite Hpanic.
Qed.

(** ** The replies *)


(** X16: when the connection is gone, the status line is still produced,
    no body is added, and the error of [Write] is logged and otherwise
    ignored: [statusResponse] returns. *)
Theorem statusResponse_write_error_logged w r (status : Z) (checks : Status) s p e :
  code w = None →
  conn_error w = Some e →
  json_Marshal (StatusPayload checks) = inl p →
  ∃ w', statusResponse json_Marshal w r status checks s =
          (Returned w', log_Printf ("error writing health status response body: " ++ e) s)
        ∧ code w' = Some status
        ∧ body w' = body w.
Proof.
  intros Hcode Hconn Hp. unfold statusResponse. rewrite Hp.
  unfold Write, WriteHeader, Header_Set; simpl. rewrite Hcode; simpl. rewrite Hconn.
  eexists. split; [reflexivity|]. split; reflexivity.
Qed.


(** ** From registration to reply *)

Lemma CheckStatus_range_all_healthy checks (order : list string) (status status' : Status)
    s s' :
  (∀ k v w, checks !! k = Some v →
            ∃ msg s1, Check v (set_world w s) = (Returned {| Error := None; Message := msg |}, s1)) →
  (∀ k h, status !! k = Some h → Healthy h = true) →
  CheckStatus_range checks order status s = (Returned status', s') →
  ∀ k h, status' !! k = Some h → Healthy h = true.
Proof.
  revert status s. induction order as [|k0 order IH]; intros status s Hok Hstatus; simpl.
  - intros [= <- <-]. exact Hstatus.
  - destruct (checks !! k0) as [v|] eqn:Hk0; [|by apply IH].
    unfold bind, CheckStatus_body, bind, ret.
    destruct (Hok k0 v (world s) Hk0) as (msg & s1 & Hr).
    replace (set_world (world s) s) with s in Hr by (by destruct s).
    rewrite Hr. pose proof (Check_frame _ _ _ _ Hr) as Hs1. apply IH.
    + intros k v' w Hk. rewrite Hs1, set_world_set_world. exact (Hok k v' w Hk).
    + intros k h. rewrite lookup_insert_Some. intros [[_ <-]|[_ Hk]]; [done|exact (Hstatus k h Hk)].
Qed.

(** X18: while every check of the default registry returns a nil error,
    whatever the world is, a GET is answered with 200, in whatever order the
    two loops run; this includes the registry without checks. *)
Theorem healthy_checks_GET_200 s l reg (order order' : list string) :
  DefaultRegistry s = Some l →
  registries s !! l = Some reg →
  (∀ k v w, checks_of reg !! k = Some v →
            ∃ msg s1, Check v (set_world w s) = (Returned {| Error := None; Message := msg |}, s1)) →
  (∀ checks, ∃ p, json_Marshal (StatusPayload checks) = inl p) →
  ∃ w' s2,
    StatusHandler json_Marshal new_ResponseWriter {| Method := "GET" |} order order' s =
      (Returned w', s2)
    ∧ code w' = Some 200%Z.
Proof.
  intros Hd Hreg Hok Hjson. unfold StatusHandler. rewrite decide_True by done.
  unfold bind at 1. unfold CheckStatus, Registry_CheckStatus. run_call.
  rewrite Hd, Hreg. simpl.
  destruct (CheckStatus_range_returns (checks_of reg) order ∅ s) as (checks & s1 & Hrun & _).
  { intros k v Hk w. destruct (Hok k v w Hk) as (msg & s1 & Hr). eauto. }
  rewrite Hrun.
  assert (isFailing_range checks order' false = false) as ->.
  { destruct (isFailing_range checks order' false) eqn:Hf; [|done].
    apply isFailing_range_true in Hf as [?|(k & h & _ & Hk & Hh)]; [done|].
    rewrite (CheckStatus_range_all_healthy _ _ _ _ _ _ Hok (λ k h, ltac:(by rewrite lookup_empty))
               Hrun k h Hk) in Hh. done. }
  destruct (Hjson checks) as (p & Hp).
  destruct (statusResponse_encoded new_ResponseWriter {| Method := "GET" |} StatusOK checks p s1
              eq_refl Hp) as (w' & s2 & Hresp & Hcode & _).
  eauto.
Qed.

(** X19: registering in the default registry, under a new name, a check
    function that reports an error turns the reply to GET into 503, provided
    the other checks return. *)
Theorem failing_check_GET_503 s l m name (check : CheckFunc World)
    (order order' : list string) :
  DefaultRegistry s = Some l →
  registries s !! l = Some {| registeredChecks := Some m |} →
  m !! name = None →
  (∀ k v, m !! k = Some v → answers s v) →
  (∀ w, ∃ e msg s1,
     CheckFunc_Check check (set_world w s) = (Returned {| Error := Some e; Message := msg |}, s1)) →
  range_order (<[name := FuncChecker check]> m) order →
  order' ≡ₚ order →
  (∀ checks, ∃ p, json_Marshal (StatusPayload checks) = inl p) →
  ∃ s1 w' s2,
    pkg_RegisterFunc name check s = (Returned tt, s1)
    ∧ StatusHandler json_Marshal new_ResponseWriter {| Method := "GET" |} order order' s1 =
        (Returned w', s2)
    ∧ code w' = Some 503%Z.
Proof.
  intros Hd Hreg Hname Hans Hfail Horder Hperm Hjson.
  apply range_order_elem in Horder as [_ Horder].
  set (m' := <[name := FuncChecker check]> m) in *.
  set (s1 := set_registries (<[l := {| registeredChecks := Some m' |}]> (registries s)) s).
  assert (pkg_RegisterFunc name check s = (Returned tt, s1)) as Hregister.
  { unfold pkg_RegisterFunc, RegisterFunc, bind at 1, get. rewrite Hd.
    by apply Register_fresh. }
  exists s1.
  cut (∃ w' s2,
         StatusHandler json_Marshal new_ResponseWriter {| Method := "GET" |} order order' s1 =
           (Returned w', s2) ∧ code w' = Some 503%Z).
  { intros (w' & s2 & ? & ?). eauto. }
  unfold StatusHandler. rewrite decide_True by done. unfold bind at 1.
  assert (CheckStatus order s1 = CheckStatus_range m' order ∅ s1) as ->.
  { unfold CheckStatus, Registry_CheckStatus, bind, get, deref. simpl.
    rewrite Hd, lookup_insert_eq. reflexivity. }
  destruct (CheckStatus_range_returns m' order ∅ s1) as (checks & s2 & Hrun & _).
  { intros k v. unfold m'. rewrite lookup_insert_Some. intros [[_ <-]|[_ Hk]].
    - intros w. destruct (Hfail w) as (e & msg & s' & Hr).
      destruct check as [body|]; simpl in *; [|done].
      destruct (body w) as [o w1]. injection Hr as -> _. eauto.
    - apply (answers_updaters s); [done|]. by eapply Hans. }
  rewrite Hrun.
  assert (name ∈ order) as Hin by (apply Horder; unfold m'; rewrite lookup_insert_eq; eauto).
  assert (∃ h, checks !! name = Some h ∧ Healthy h = false) as (h & Hh & Hunhealthy).
  { apply list_elem_of_split_r in Hin as (pre & post & -> & Hpost).
    destruct (CheckStatus_range_entry m' pre name post (FuncChecker check) _ _ _ _ Hrun Hpost)
      as (st & sk & r & sk' & Hpre & Hr & Hentry).
    { apply lookup_insert_eq. }
    eexists. split; [exact Hentry|]. simpl.
    pose proof (CheckStatus_range_frame m' pre ∅ s1) as Hsk. rewrite Hpre in Hsk. simpl in Hsk.
    destruct (Hfail (world sk)) as (e & msg & s' & Hr').
    rewrite Hsk in Hr. simpl in Hr. unfold s1 in Hr.
    replace (set_world (world sk) (set_registries _ s))
      with (set_registries (<[l := {| registeredChecks := Some m' |}]> (registries s))
              (set_world (world sk) s)) in Hr by reflexivity.
    destruct check as [body|]; simpl in *; [|done].
    destruct (body (world sk)) as [o w1]. injection Hr' as -> _. by injection Hr as <- _. }
  assert (isFailing_range checks order' false = true) as ->.
  { apply isFailing_range_true. right. exists name, h. split; [by rewrite Hperm|done]. }
  destruct (Hjson checks) as (p & Hp).
  destruct (statusResponse_encoded new_ResponseWriter {| Method := "GET" |}
              StatusServiceUnavailable checks p s2 eq_refl Hp) as (w' & s3 & Hresp & Hcode & _).
  eauto.
Qed.

(** ** Periodic checks in a running program *)

Lemma periodic_extend s s' i l check (period : Z) p r (new : list (Goroutine World)) :
  periodic s i l check period p r →
  updaters s' !! l = updaters s !! l →
  goroutines s' = (goroutines s ++ new)%list →
  (∀ g, g ∈ new → g_u g ≠ Some l) →
  periodic s' i l check period p r.
Proof.
  intros (Hi & Hl & Hothers) Hu Hg Hnew. split; [|split].
  - rewrite Hg. by apply lookup_app_l_Some.
  - by rewrite Hu.
  - intros j g Hj. rewrite Hg. intros Hlook.
    apply lookup_app_Some in Hlook as [Hlook|[_ Hlook]].
    + by apply (Hothers j).
    + apply Hnew. apply list_elem_of_lookup. eauto.
Qed.

Lemma periodic_same s s' i l check (period : Z) p r :
  periodic s i l check period p r →
  updaters s' = updaters s →
  goroutines s' = goroutines s →
  periodic s' i l check period p r.
Proof.
  intros Hper Hu Hg. apply (periodic_extend s s' i l check period p r []); try done.
  - by rewrite Hu.
  - by rewrite Hg, app_nil_r.
  - intros g Hin. by apply elem_of_nil in Hin.
Qed.

Lemma Registry_CheckStatus_frame registry (order : list string) s :
  snd (Registry_CheckStatus registry order s)
  = set_world (world (snd (Registry_CheckStatus registry order s))) s.
Proof.
  unfold Registry_CheckStatus, bind, deref.
  destruct registry as [l|]; [|by destruct s].
  destruct (registries s !! l) as [reg|]; [|by destruct s].
  simpl. apply CheckStatus_range_frame.
Qed.

Lemma StatusHandler_frame w r (order order' : list string) s o s' :
  StatusHandler json_Marshal w r order order' s = (o, s') →
  updaters s' = updaters s ∧ goroutines s' = goroutines s.
Proof.
  unfold StatusHandler. destruct (decide (Method r = "GET")); [|by intros [= <- <-]].
  unfold bind at 1. unfold CheckStatus, bind at 1, get.
  pose proof (Registry_CheckStatus_frame (DefaultRegistry s) order s) as Hframe.
  destruct (Registry_CheckStatus (DefaultRegistry s) order s) as [[checks|msg] s1];
    simpl in Hframe.
  2:{ intros [= <- <-]. by rewrite Hframe. }
  assert (updaters s1 = updaters s ∧ goroutines s1 = goroutines s) as [<- <-]
    by (by rewrite Hframe).
  clear Hframe. unfold statusResponse, Write, WriteHeader, Header_Set. simpl.
  destruct (json_Marshal (StatusPayload checks)) as [p|err].
  - destruct (code w); simpl; destruct (conn_error w); by intros [= <- <-].
  - unfold bind at 1, modify.
    destruct (json_Marshal (ServerErrorPayload _)) as [p|err']; [|by intros [= <- <-]].
    destruct (code w); simpl; destruct (conn_error w); by intros [= <- <-].
Qed.

(** A call other than [Update] on its updater leaves a periodic checker and
    its goroutine as they are. *)
Lemma after_call_periodic c s i l check (period : Z) p r :
  periodic s i l check period p r →
  (∀ status, c ≠ CallUpdate (Some l) status) →
  periodic (after_call json_Marshal c s) i l check period p r.
Proof.
  intros Hper Hc.
  assert (fresh (dom (updaters s)) ≠ l) as Hfresh.
  { intros <-. destruct Hper as (_ & Hl & _). apply elem_of_dom_2 in Hl.
    by apply is_fresh in Hl. }
  destruct c as [| |registry name v|registry name period' cf|registry order|w rq order order'
                 |v period'| |u status|v]; cbn [after_call].
  - by apply (periodic_same s).
  - by apply (periodic_same s).
  - destruct (Register_frame registry name v s). by apply (periodic_same s).
  - unfold RegisterPeriodicFunc, bind. rewrite PeriodicChecker_state.
    match goal with |- context [Register ?a ?b ?c ?d] =>
      destruct (Register_frame a b c d) as (Hu & Hg);
      destruct (Register a b c d) as [[[]|msg] s2] end;
      simpl in *;
      (eapply (periodic_extend s); [exact Hper| | |]; [rewrite Hu; simpl; by rewrite lookup_insert_ne
        |rewrite Hg; reflexivity
        |intros g Hin; apply list_elem_of_singleton in Hin as ->; simpl; congruence]).
  - rewrite Registry_CheckStatus_frame. by apply (periodic_same s).
  - destruct (StatusHandler json_Marshal w rq order order' s) as [o s2] eqn:Hrun.
    apply StatusHandler_frame in Hrun as [? ?]. by apply (periodic_same s).
  - rewrite PeriodicChecker_state. simpl.
    eapply (periodic_extend s); [exact Hper| |reflexivity|].
    + simpl. by rewrite lookup_insert_ne.
    + intros g Hin. apply list_elem_of_singleton in Hin as ->. simpl. congruence.
  - unfold NewStatusUpdater. simpl.
    eapply (periodic_extend s _ _ _ _ _ _ _ []); [exact Hper| | |].
    + simpl. by rewrite lookup_insert_ne.
    + simpl. by rewrite app_nil_r.
    + intros g Hin. by apply elem_of_nil in Hin.
  - unfold updater_Update. run_call. destruct u as [l'|]; [|done].
    destruct (updaters s !! l') eqn:Hl'; simpl; [|done].
    eapply (periodic_extend s _ _ _ _ _ _ _ []); [exact Hper| | |].
    + simpl. rewrite lookup_insert_ne; [done|]. intros ->. by apply (Hc status).
    + simpl. by rewrite app_nil_r.
    + intros g Hin. by apply elem_of_nil in Hin.
  - destruct (Check v s) as [o s1] eqn:Hv. apply Check_frame in Hv. simpl. rewrite Hv.
    by apply (periodic_same s).
Qed.

Ltac step_facts :=
  intros; simplify_eq; eauto;
  try (exfalso; match goal with H : ∀ x, AtUpdate ?y ≠ AtUpdate x |- _ => by apply (H y) end).

(** One step of the program, seen from a periodic checker. *)
Lemma perform_periodic st s s' i l check (period : Z) p r :
  perform json_Marshal st s = (Returned tt, s') →
  Some l ∉ updated [st] →
  periodic s i l check period p r →
  ∃ p' r',
    periodic s' i l check period p' r'
    ∧ point_of p' = foldl (point_step i) (point_of p) (events [st])
    ∧ (st ≠ Go (Store i) → r' = r ∧ ∀ x, p = AtUpdate x → p' = AtUpdate x)
    ∧ (st ≠ Go (Tick i) → (∀ x, p ≠ AtUpdate x) → ∀ x, p' ≠ AtUpdate x)
    ∧ (st = Go (Tick i) → p = AtReceive →
       ∃ x sx, Check check s = (Returned x, sx) ∧ p' = AtUpdate x)
    ∧ (st = Go (Store i) → ∀ x, p = AtUpdate x → p' = AtReceive ∧ r' = x)
    ∧ ((∀ x, p ≠ AtUpdate x) → r' = r).
Proof.
  intros Hrun Hupd Hper. destruct st as [e|c]; simpl in Hrun.
  - destruct (exec_periodic _ _ _ _ _ _ _ _ _ Hrun Hper) as (p' & r' & Hper' & Hstep).
    exists p', r'. split; [done|]. clear Hrun Hper Hper' Hupd. unfold events.
    cbn [omap list_omap foldl].
    destruct e as [j|j|j].
    + destruct Hstep as [-> ->].
      destruct (decide (j = i)) as [->|]; destruct p; cbn [point_of point_step foldl];
        repeat case_decide; repeat split; step_facts.
    + destruct Hstep as [-> Hstep].
      destruct (decide (j = i)) as [->|Hne]; [destruct p as [| |y]|].
      * subst p'. cbn [point_of point_step foldl]. repeat split; step_facts.
      * destruct Hstep as (x & sx & Hx & ->). cbn [point_of point_step foldl].
        repeat case_decide; repeat split; step_facts.
      * subst p'. cbn [point_of point_step foldl]. repeat split; step_facts.
      * subst p'. destruct p; cbn [point_of point_step foldl];
          repeat case_decide; repeat split; step_facts.
    + destruct (decide (j = i)) as [->|Hne].
      * destruct p as [| |y]; destruct Hstep as [-> ->]; cbn [point_of point_step foldl];
          repeat case_decide; repeat split; step_facts.
      * destruct Hstep as [-> ->]. destruct p; cbn [point_of point_step foldl];
          repeat case_decide; repeat split; step_facts.
  - injection Hrun as <-. exists p, r. split; [|by repeat split].
    apply after_call_periodic; [done|]. intros status ->. apply Hupd. simpl. by left.
Qed.

Lemma proceed_cons_inv st (steps : list (step World)) s s' :
  proceed json_Marshal (st :: steps) s = (Returned tt, s') →
  ∃ s1, perform json_Marshal st s = (Returned tt, s1)
        ∧ proceed json_Marshal steps s1 = (Returned tt, s').
Proof.
  simpl. unfold bind. destruct (perform json_Marshal st s) as [[[]|msg] s1]; [eauto|done].
Qed.

Lemma proceed_app_inv (steps1 steps2 : list (step World)) s s' :
  proceed json_Marshal (steps1 ++ steps2) s = (Returned tt, s') →
  ∃ s1, proceed json_Marshal steps1 s = (Returned tt, s1)
        ∧ proceed json_Marshal steps2 s1 = (Returned tt, s').
Proof.
  revert s. induction steps1 as [|st steps1 IH]; intros s; simpl.
  - eauto.
  - unfold bind. destruct (perform json_Marshal st s) as [[[]|msg] s1]; [apply IH|done].
Qed.

Lemma updated_cons l (st : step World) (steps : list (step World)) :
  Some l ∉ updated (st :: steps) → (Some l ∉ updated [st]) ∧ (Some l ∉ updated steps).
Proof.
  unfold updated. simpl.
  destruct st as [e|[]]; simpl; rewrite ?not_elem_of_cons;
    intros H; (split; [|tauto]); try apply not_elem_of_nil.
  split; [tauto|apply not_elem_of_nil].
Qed.

Lemma events_cons e (st : step World) (steps : list (step World)) :
  e ∉ events (st :: steps) → st ≠ Go e ∧ e ∉ events steps.
Proof.
  unfold events. simpl. destruct st as [e'|c]; simpl; rewrite ?not_elem_of_cons.
  - intros [Hne Hrest]. split; [congruence|done].
  - done.
Qed.

Lemma events_fold i (q : point) (st : step World) (steps : list (step World)) :
  foldl (point_step i) q (events (st :: steps))
  = foldl (point_step i) (foldl (point_step i) q (events [st])) (events steps).
Proof. unfold events. simpl. by destruct st. Qed.

(** Where the goroutine is follows from the events alone. *)
Lemma proceed_point (steps : list (step World)) s s' i l check (period : Z) p r :
  proceed json_Marshal steps s = (Returned tt, s') →
  Some l ∉ updated steps →
  periodic s i l check period p r →
  ∃ p' r', periodic s' i l check period p' r'
           ∧ point_of p' = foldl (point_step i) (point_of p) (events steps).
Proof.
  revert s p r. induction steps as [|st steps IH]; intros s p r Hrun Hupd Hper.
  - injection Hrun as <-. eauto.
  - apply proceed_cons_inv in Hrun as (s1 & Hst & Hrun).
    apply updated_cons in Hupd as [Hupd1 Hupd].
    destruct (perform_periodic _ _ _ _ _ _ _ _ _ Hst Hupd1 Hper) as (p1 & r1 & Hper1 & Hp1 & _).
    destruct (IH s1 p1 r1 Hrun Hupd Hper1) as (p' & r' & Hper' & Hp').
    exists p', r'. split; [done|]. by rewrite events_fold, <- Hp1.
Qed.

(** Only the store of its goroutine writes the updater, and an evaluated
    [Result] waits for it. *)
Lemma proceed_no_Store (steps : list (step World)) s s' i l check (period : Z) p r :
  proceed json_Marshal steps s = (Returned tt, s') →
  Some l ∉ updated steps →
  Store i ∉ events steps →
  periodic s i l check period p r →
  ∃ p', periodic s' i l check period p' r ∧ ∀ x, p = AtUpdate x → p' = AtUpdate x.
Proof.
  revert s p. induction steps as [|st steps IH]; intros s p Hrun Hupd Hno Hper.
  - injection Hrun as <-. eauto.
  - apply proceed_cons_inv in Hrun as (s1 & Hst & Hrun).
    apply updated_cons in Hupd as [Hupd1 Hupd]. apply events_cons in Hno as [Hne Hno].
    destruct (perform_periodic _ _ _ _ _ _ _ _ _ Hst Hupd1 Hper)
      as (p1 & r1 & Hper1 & _ & Hkeep & _).
    destruct (Hkeep Hne) as [-> Hp1].
    destruct (IH s1 p1 Hrun Hupd Hno Hper1) as (p' & Hper' & Hp').
    exists p'. split; [done|]. intros x Hx. apply Hp'. by apply Hp1.
Qed.

(** Before the goroutine receives a tick the updater holds what it held. *)
Lemma proceed_no_Tick (steps : list (step World)) s s' i l check (period : Z) p r :
  proceed json_Marshal steps s = (Returned tt, s') →
  Some l ∉ updated steps →
  Tick i ∉ events steps →
  periodic s i l check period p r →
  (∀ x, p ≠ AtUpdate x) →
  ∃ p', periodic s' i l check period p' r ∧ ∀ x, p' ≠ AtUpdate x.
Proof.
  revert s p. induction steps as [|st steps IH]; intros s p Hrun Hupd Hno Hper Hp.
  - injection Hrun as <-. eauto.
  - apply proceed_cons_inv in Hrun as (s1 & Hst & Hrun).
    apply updated_cons in Hupd as [Hupd1 Hupd]. apply events_cons in Hno as [Hne Hno].
    destruct (perform_periodic _ _ _ _ _ _ _ _ _ Hst Hupd1 Hper)
      as (p1 & r1 & Hper1 & _ & _ & Hnot & _ & _ & Hsame).
    rewrite (Hsame Hp) in Hper1.
    by apply (IH s1 p1 Hrun Hupd Hno Hper1), Hnot.
Qed.

(** C5: [PeriodicChecker] allocates an updater, starts one goroutine for
    it and returns without evaluating the wrapped checker.  In every run of
    the program from there (events of the goroutines interleaved with calls
    of the package, none of them an [Update] on this updater):
    - where the goroutine is follows from its events alone;
    - until it has received a tick, [Check] on the periodic checker returns
      the zero [Result], which [CheckStatus] reports as healthy with an
      empty message;
    - once an iteration has completed, that is a tick received while the
      goroutine was waiting for one and the store that follows it, [Check]
      returns what the wrapped checker returned at that tick, until the
      next store;
    - with a positive period the goroutine can always take its next step,
      the evaluation provided the wrapped checker returns. *)
Theorem PeriodicChecker_reads_last_completed_tick check (period : Z) s0 :
  goroutines_allocated s0 →
  ∃ l s1, let g := length (goroutines s0) in
          let c := UpdaterChecker (Some l) in
    PeriodicChecker check period s0 = (Returned c, s1)
    ∧ world s1 = world s0
    ∧ goroutines s1 = (goroutines s0 ++ [mkGoroutine (Some l) check period AtNewTicker])%list
    ∧ (∀ (steps : list (step World)) s2,
         Some l ∉ updated steps →
         proceed json_Marshal steps s1 = (Returned tt, s2) →
         point_of <$> (g_pc <$> goroutines s2 !! g) = Some (point_after g (events steps))
         ∧ (Tick g ∉ events steps →
            Check c s2 = (Returned zero_Result, s2)
            ∧ ∀ k (status : Status),
                CheckStatus_body k c status s2 =
                  (Returned (<[k := {| Healthy := true; hcMessage := EmptyString |}]> status),
                   s2)))
    ∧ (∀ (steps1 steps2 steps3 : list (step World)) sa r sb s2,
         Some l ∉ updated steps1 →
         Some l ∉ updated steps2 →
         Some l ∉ updated steps3 →
         proceed json_Marshal steps1 s1 = (Returned tt, sa) →
         point_after g (events steps1) = Receiving →
         Check check sa = (Returned r, sb) →
         Store g ∉ events steps2 →
         Store g ∉ events steps3 →
         proceed json_Marshal (steps1 ++ Go (Tick g) :: steps2 ++ Go (Store g) :: steps3) s1 =
           (Returned tt, s2) →
         Check c s2 = (Returned r, s2))
    ∧ ((0 < period)%Z →
       ∀ (steps : list (step World)) sa,
         Some l ∉ updated steps →
         proceed json_Marshal steps s1 = (Returned tt, sa) →
         match point_after g (events steps) with
         | Starting => ∃ sb, exec (NewTicker g) sa = (Returned tt, sb)
         | Receiving =>
             ∀ r sb, Check check sa = (Returned r, sb) →
                     ∃ sc, exec (Tick g) sa = (Returned tt, sc)
         | Storing => ∃ sb, exec (Store g) sa = (Returned tt, sb)
         end).
Proof.
  intros Halloc.
  destruct (PeriodicChecker_periodic check period s0 Halloc) as (l & s1 & Hnew & Hw & Hper).
  exists l, s1. cbv zeta. split; [done|]. split; [done|]. split.
  { rewrite PeriodicChecker_state in Hnew. by injection Hnew as <- <-. }
  split; [|split].
  - intros steps s2 Hupd Hrun. split.
    + destruct (proceed_point _ _ _ _ _ _ _ _ _ Hrun Hupd Hper) as (p' & r' & (Hg & _) & Hp').
      rewrite Hg. simpl. by rewrite Hp'.
    + intros Hno.
      destruct (proceed_no_Tick _ _ _ _ _ _ _ _ _ Hrun Hupd Hno Hper) as (p' & Hper' & _);
        [done|].
      pose proof (periodic_Check _ _ _ _ _ _ _ Hper') as Hc. simpl in Hc.
      split; [done|]. intros k status. unfold CheckStatus_body, bind. simpl.
      by rewrite Hc.
  - intros steps1 steps2 steps3 sa r sb s2 Hupd1 Hupd2 Hupd3 Hrun1 Hpoint Hr Hno2 Hno3 Hrun.
    apply proceed_app_inv in Hrun as (sa' & Hrun1' & Hrun).
    rewrite Hrun1 in Hrun1'. injection Hrun1' as <-.
    apply proceed_cons_inv in Hrun as (sb' & Htick & Hrun).
    apply proceed_app_inv in Hrun as (sc & Hrun2 & Hrun).
    apply proceed_cons_inv in Hrun as (sd & Hstore & Hrun3).
    destruct (proceed_point _ _ _ _ _ _ _ _ _ Hrun1 Hupd1 Hper) as (pa & ra & Hpa & Hpoint').
    assert (pa = AtReceive) as ->.
    { unfold point_after in Hpoint. simpl in Hpoint'. rewrite Hpoint in Hpoint'.
      by destruct pa. }
    simpl in Htick, Hstore.
    destruct (exec_periodic _ _ _ _ _ _ _ _ _ Htick Hpa) as (pb & rb & Hpb & -> & Hstep).
    rewrite decide_True in Hstep by done. destruct Hstep as (x & sx & Hx & ->).
    rewrite Hr in Hx. injection Hx as <- <-.
    destruct (proceed_no_Store _ _ _ _ _ _ _ _ _ Hrun2 Hupd2 Hno2 Hpb) as (pc' & Hpc' & Hkeep).
    rewrite (Hkeep r eq_refl) in Hpc'.
    destruct (exec_periodic _ _ _ _ _ _ _ _ _ Hstore Hpc') as (pd & rd & Hpd & Hstep).
    rewrite decide_True in Hstep by done. destruct Hstep as [-> ->].
    destruct (proceed_no_Store _ _ _ _ _ _ _ _ _ Hrun3 Hupd3 Hno3 Hpd) as (p' & Hper' & _).
    by eapply periodic_Check.
  - intros Hperiod steps sa Hupd Hrun.
    destruct (proceed_point _ _ _ _ _ _ _ _ _ Hrun Hupd Hper)
      as (p' & r' & (Hg & Hl & _) & Hp').
    unfold point_after. simpl in Hp'. rewrite <- Hp'.
    destruct p' as [| |x]; simpl; unfold exec, set_pc, updater_Update; run_call;
      rewrite Hg; simpl.
    + rewrite decide_False by lia. eauto.
    + intros r sb ->. eauto.
    + rewrite Hl. simpl. eauto.
Qed.

End Properties.

(** * The examples, run *)

Ltac by_computation := apply (bool_decide_unpack _); vm_compute; exact I.

Example boot_DefaultRegistry :
  DefaultRegistry boot = Some 0
  ∧ registries boot !! 0 = Some {| registeredChecks := Some ∅ |}.
Proof. split; reflexivity. Qed.

Example two_checks_Status :
  CheckStatus ["a"; "b"] two_checks = (Returned two_entries, two_checks)
  ∧ CheckStatus ["b"; "a"] two_checks = (Returned two_entries, two_checks).
Proof. split; vm_compute; reflexivity. Qed.

(** One unhealthy check among two gives 503; an empty registry gives 200. *)
Example GET_two_checks :
  ∃ w', StatusHandler plain_json new_ResponseWriter {| Method := "GET" |}
          ["a"; "b"] ["b"; "a"] two_checks = (Returned w', two_checks)
        ∧ code w' = Some 503%Z
        ∧ Header w' !! "Content-Type" = Some "application/json; charset=utf-8".
Proof. eexists. split; [vm_compute; reflexivity|]. split; reflexivity. Qed.

Example GET_empty_registry :
  ∃ w', StatusHandler plain_json new_ResponseWriter {| Method := "GET" |} [] [] boot =
          (Returned w', boot)
        ∧ code w' = Some 200%Z ∧ body w' = "{}"
        ∧ Header w' !! "Content-Length" = Some "2".
Proof. eexists. split; [vm_compute; reflexivity|]. repeat split; reflexivity. Qed.

(** A periodic [counting] check: the goroutine creates its ticker, receives
    a tick and stores ["0"]; it receives the next tick, and until it has
    stored ["1"] the checker still answers ["0"]. *)
Example periodic_counting :
  let '(c, s1) := PeriodicChecker (FuncChecker counting) 5 boot in
  c = Returned (UpdaterChecker (Some 0))
  ∧ fst (Check (UpdaterChecker (Some 0)) (snd (run [NewTicker 0] s1)))
      = Returned zero_Result
  ∧ fst (Check (UpdaterChecker (Some 0)) (snd (run [NewTicker 0; Tick 0; Store 0; Tick 0] s1)))
      = Returned {| Error := None; Message := "0" |}
  ∧ fst (Check (UpdaterChecker (Some 0))
           (snd (run [NewTicker 0; Tick 0; Store 0; Tick 0; Store 0] s1)))
      = Returned {| Error := None; Message := "1" |}.
Proof. vm_compute. repeat split; reflexivity. Qed.

(** A period that is not positive ends the process in [time.NewTicker]. *)
Example periodic_zero_period :
  let '(_, s1) := PeriodicChecker (FuncChecker counting) 0 boot in
  fst (run [NewTicker 0] s1) = Panicked "non-positive interval for NewTicker".
Proof. vm_compute. reflexivity. Qed.

(** * Witnesses and counterexamples *)

Lemma StatusHandler_GET_status_code_witness :
  ∃ w' s2,
    StatusHandler plain_json new_ResponseWriter {| Method := "GET" |}
      ["a"; "b"] ["b"; "a"] two_checks = (Returned w', s2)
    ∧ ((∃ k h, two_entries !! k = Some h ∧ Healthy h = false) → code w' = Some 503%Z)
    ∧ ((∀ k h, two_entries !! k = Some h → Healthy h = true) → code w' = Some 200%Z).
Proof.
  eapply (StatusHandler_GET_status_code plain_json new_ResponseWriter {| Method := "GET" |}
            ["a"; "b"] ["b"; "a"] two_checks two_entries two_checks).
  - reflexivity.
  - reflexivity.
  - vm_compute; reflexivity.
  - unfold range_order. by_computation.
  - reflexivity.
Defined.

Lemma Register_existing_name_panics_witness :
  ∃ s', Register (Some 0) "a" (FuncChecker disk_full) two_checks =
          (Panicked "Check already exists: a", s')
        ∧ ∃ reg', registries s' !! 0 = Some reg'
                  ∧ checks_of reg' !! "a" = Some (FuncChecker healthy_check).
Proof.
  eapply (Register_existing_name_panics two_checks 0 _ "a" (FuncChecker healthy_check)).
  - vm_compute; reflexivity.
  - vm_compute; reflexivity.
Defined.

Lemma CheckStatus_one_entry_per_name_witness :
  ∃ registry s1 s2 status s3,
    NewRegistry (start 0) = (Returned registry, s1)
    ∧ Register_all registry
        [("a", FuncChecker healthy_check); ("b", FuncChecker disk_full)] s1 = (Returned tt, s2)
    ∧ Registry_CheckStatus registry ["b"; "a"] s2 = (Returned status, s3)
    ∧ dom status = list_to_set ["a"; "b"]
    ∧ size status = 2.
Proof.
  destruct (CheckStatus_one_entry_per_name (start 0)
              [("a", FuncChecker healthy_check); ("b", FuncChecker disk_full)] ["b"; "a"])
    as (registry & s1 & s2 & status & s3 & H1 & H2 & H3 & H4 & H5 & _).
  - by_computation.
  - intros name v Hin w.
    apply elem_of_cons in Hin as [[= -> ->]|Hin]; [do 2 eexists; reflexivity|].
    apply elem_of_cons in Hin as [[= -> ->]|Hin]; [do 2 eexists; reflexivity|].
    by apply elem_of_nil in Hin.
  - by_computation.
  - exists registry, s1, s2, status, s3. repeat split; assumption.
Defined.

Lemma Update_then_Check_witness :
  ∃ s1, updater_Update (Some 0) {| Error := Some "down"; Message := "down" |}
          (snd (NewStatusUpdater boot)) = (Returned tt, s1)
        ∧ updater_Check (Some 0) s1 = (Returned {| Error := Some "down"; Message := "down" |}, s1)
        ∧ Check (UpdaterChecker (Some 0)) s1 =
            (Returned {| Error := Some "down"; Message := "down" |}, s1).
Proof.
  apply (Update_then_Check (snd (NewStatusUpdater boot)) 0).
  vm_compute. eauto.
Defined.

(** A run from [PeriodicChecker(counting, 5)]: the goroutine creates its
    ticker, the program takes a snapshot, the goroutine receives a tick and
    counts 0, the program registers the periodic checker, the goroutine
    stores, receives the next tick and counts 1 without having stored it
    yet: the checker still answers 0. *)
Lemma PeriodicChecker_reads_last_completed_tick_witness :
  goroutines_allocated boot
  ∧ ∃ c s1 s2,
      PeriodicChecker (FuncChecker counting) 5 boot = (Returned c, s1)
      ∧ proceed plain_json
          [Go (NewTicker 0); Caller (CallCheckStatus (Some 0) []); Go (Tick 0);
           Caller (CallRegister None "load" c); Go (Store 0); Go (Tick 0)] s1 =
          (Returned tt, s2)
      ∧ world s2 = 2
      ∧ Check c s2 = (Returned {| Error := None; Message := "0" |}, s2).
Proof.
  assert (goroutines_allocated boot) as Halloc.
  { intros g Hg. vm_compute in Hg. by apply elem_of_nil in Hg. }
  split; [exact Halloc|].
  destruct (PeriodicChecker_reads_last_completed_tick plain_json (FuncChecker counting) 5 boot
              Halloc) as (l & s1 & Hnew & _ & _ & _ & Hlast & _).
  cbv zeta in *.
  assert (PeriodicChecker (FuncChecker counting) 5 boot
          = (Returned (UpdaterChecker (Some 0)),
             snd (PeriodicChecker (FuncChecker counting) 5 boot))) as Hrun by reflexivity.
  rewrite Hrun in Hnew. injection Hnew as <- <-.
  exists (UpdaterChecker (Some 0)), (snd (PeriodicChecker (FuncChecker counting) 5 boot)).
  eexists. split; [reflexivity|]. split; [vm_compute; reflexivity|].
  split; [reflexivity|].
  eapply (Hlast [Go (NewTicker 0); Caller (CallCheckStatus (Some 0) [])]
                [Caller (CallRegister None "load" (UpdaterChecker (Some 0)))]
                [Go (Tick 0)]).
  - by_computation.
  - by_computation.
  - by_computation.
  - vm_compute; reflexivity.
  - reflexivity.
  - vm_compute; reflexivity.
  - by_computation.
  - by_computation.
  - vm_compute; reflexivity.
Defined.

(** C6 as stated fails: the reply to a POST has a body. *)
Lemma StatusHandler_POST_body_not_empty :
  ∃ w', StatusHandler plain_json new_ResponseWriter {| Method := "POST" |} [] [] boot =
          (Returned w', boot)
        ∧ code w' = Some 404%Z
        ∧ body w' ≠ EmptyString.
Proof. eexists. split; [vm_compute; reflexivity|]. split; [reflexivity|discriminate]. Qed.

Lemma StatusHandler_other_method_NotFound_witness :
  ∃ w', StatusHandler plain_json new_ResponseWriter {| Method := "POST" |}
          ["a"; "b"] ["b"; "a"] two_checks = (Returned w', two_checks)
        ∧ code w' = Some 404%Z
        ∧ body w' = "404 page not found" ++ newline.
Proof.
  apply (StatusHandler_other_method_NotFound plain_json {| Method := "POST" |}).
  simpl. discriminate.
Defined.

Lemma statusResponse_fallback_witness :
  (∀ p, no_Status_json (ServerErrorPayload "Could not parse error message") = inl p →
        ∃ w', statusResponse no_Status_json new_ResponseWriter {| Method := "GET" |} 503
                two_entries two_checks =
                (Returned w',
                 log_Printf ("error serializing health status: " ++ "json: unsupported value")
                   two_checks)
              ∧ code w' = Some 500%Z
              ∧ body w' = body new_ResponseWriter ++ p)
  ∧ (∀ err', no_Status_json (ServerErrorPayload "Could not parse error message") = inr err' →
        statusResponse no_Status_json new_ResponseWriter {| Method := "GET" |} 503
          two_entries two_checks =
          (Returned new_ResponseWriter,
           log_Printf ("error serializing health status failure message: " ++ err')
             (log_Printf ("error serializing health status: " ++ "json: unsupported value")
                two_checks))).
Proof.
  apply (statusResponse_fallback no_Status_json new_ResponseWriter {| Method := "GET" |} 503
           two_entries two_checks "json: unsupported value"); reflexivity.
Defined.

(** The fallback reply, and the reply abandoned. *)
Example statusResponse_fallback_body :
  ∃ w', fst (statusResponse no_Status_json new_ResponseWriter {| Method := "GET" |} 503
               two_entries two_checks) = Returned w'
        ∧ code w' = Some 500%Z
        ∧ body w' = render_ServerError "Could not parse error message"
        ∧ Header w' !! "Content-Length" = Some "48".
Proof. eexists. split; [vm_compute; reflexivity|]. repeat split; reflexivity. Qed.

Example statusResponse_abandoned :
  fst (statusResponse no_json new_ResponseWriter {| Method := "GET" |} 503
         two_entries two_checks) = Returned new_ResponseWriter
  ∧ logged (snd (statusResponse no_json new_ResponseWriter {| Method := "GET" |} 503
                   two_entries two_checks)) =
      ["error serializing health status: json: unsupported value";
       "error serializing health status failure message: json: unsupported value"].
Proof. split; vm_compute; reflexivity. Qed.

(** C8 as stated fails: the panic of a checker leaves [CheckStatus]. *)
Lemma CheckStatus_crashing_checker_panics :
  CheckStatus ["db"] one_crashing = (Panicked "connection refused", one_crashing)
  ∧ ¬ ∃ status s', CheckStatus ["db"] one_crashing = (Returned status, s').
Proof.
  assert (CheckStatus ["db"] one_crashing = (Panicked "connection refused", one_crashing))
    as H by (vm_compute; reflexivity).
  split; [exact H|]. intros (status & s' & H'). rewrite H in H'. discriminate.
Qed.

Lemma CheckStatus_panic_propagates_witness :
  ((∀ k v, checks_of {| registeredChecks := Some {["db" := FuncChecker crashing]} |} !! k = Some v →
           answers one_crashing v) →
   ∃ status s', Registry_CheckStatus (Some 0) ["db"] one_crashing = (Returned status, s'))
  ∧ (∀ pre k post v st sk msg sk',
       ["db"] = (pre ++ k :: post)%list →
       checks_of {| registeredChecks := Some {["db" := FuncChecker crashing]} |} !! k = Some v →
       Registry_CheckStatus (Some 0) pre one_crashing = (Returned st, sk) →
       Check v sk = (Panicked msg, sk') →
       Registry_CheckStatus (Some 0) ["db"] one_crashing = (Panicked msg, sk')).
Proof.
  apply (CheckStatus_panic_propagates one_crashing 0).
  vm_compute; reflexivity.
Defined.

Lemma Register_nil_receiver_uses_DefaultRegistry_witness :
  Register None "a" (FuncChecker healthy_check) boot =
    Register (Some 0) "a" (FuncChecker healthy_check) boot
  ∧ Register None "a" (FuncChecker healthy_check) boot =
      (Returned tt,
       set_registries
         (<[0 := {| registeredChecks := Some (<["a" := FuncChecker healthy_check]> ∅) |}]>
            (registries boot)) boot).
Proof.
  apply (Register_nil_receiver_uses_DefaultRegistry boot 0 ∅ "a"); reflexivity.
Defined.

Lemma Register_panic_leaves_state_witness :
  snd (Register None "a" (FuncChecker disk_full) two_checks) = two_checks.
Proof.
  apply (Register_panic_leaves_state None "a" (FuncChecker disk_full) two_checks
           "Check already exists: a").
  vm_compute; reflexivity.
Defined.

(** * Witnesses of the further properties *)

Lemma Register_binds_name_only_witness :
  ∃ l reg reg',
    receiver None boot = Some l
    ∧ registries boot !! l = Some reg
    ∧ registries one_healthy !! l = Some reg'
    ∧ checks_of reg' !! "a" = Some (FuncChecker healthy_check)
    ∧ (∀ k, k ≠ "a" → checks_of reg' !! k = checks_of reg !! k)
    ∧ (∀ l', l' ≠ l → registries one_healthy !! l' = registries boot !! l')
    ∧ updaters one_healthy = updaters boot ∧ world one_healthy = world boot
    ∧ goroutines one_healthy = goroutines boot
    ∧ DefaultRegistry one_healthy = DefaultRegistry boot.
Proof.
  apply (Register_binds_name_only None "a" (FuncChecker healthy_check) boot one_healthy).
  vm_compute; reflexivity.
Defined.

Lemma zero_value_Registry_witness :
  Registry_CheckStatus (Some 0) ["a"] with_zero_Registry = (Returned ∅, with_zero_Registry)
  ∧ Register (Some 0) "a" (FuncChecker healthy_check) with_zero_Registry =
      (Panicked nil_map_assignment, with_zero_Registry).
Proof.
  apply (zero_value_Registry with_zero_Registry 0 "a" (FuncChecker healthy_check) ["a"]).
  vm_compute; reflexivity.
Defined.

Lemma CheckStatus_order_irrelevant_witness :
  two_checks = two_checks
  ∧ Registry_CheckStatus (Some 0) ["b"; "a"] two_checks = (Returned two_entries, two_checks).
Proof.
  apply (CheckStatus_order_irrelevant two_checks 0
           {| registeredChecks :=
                Some (<["b" := FuncChecker disk_full]> (<["a" := FuncChecker healthy_check]> ∅)) |}
           ["a"; "b"] ["b"; "a"] two_entries two_checks).
  - vm_compute; reflexivity.
  - intros k v. unfold checks_of; simpl. rewrite !lookup_insert_Some, lookup_empty.
    intros [[_ <-]|[_ [[_ <-]|[_ [=]]]]]; intros [w rs us d gs lg]; reflexivity.
  - unfold range_order. by_computation.
  - unfold range_order. by_computation.
  - vm_compute; reflexivity.
Defined.

Lemma Update_last_writer_wins_witness :
  ∃ s1 s2,
    updater_Update (Some 0) {| Error := Some "down"; Message := "down" |}
      (snd (NewStatusUpdater boot)) = (Returned tt, s1)
    ∧ updater_Update (Some 0) {| Error := None; Message := "up" |} s1 = (Returned tt, s2)
    ∧ updater_Check (Some 0) s2 = (Returned {| Error := None; Message := "up" |}, s2)
    ∧ ∀ l', l' ≠ 0 →
        fst (updater_Check (Some l') s2) = fst (updater_Check (Some l') (snd (NewStatusUpdater boot))).
Proof.
  apply (Update_last_writer_wins (snd (NewStatusUpdater boot)) 0).
  vm_compute. eauto.
Defined.

Lemma RegisterPeriodicFunc_duplicate_keeps_goroutine_witness :
  ∃ (lu : loc) s',
    RegisterPeriodicFunc None "a" 5 counting one_healthy =
      (Panicked ("Check already exists: " ++ "a"), s')
    ∧ registries s' = registries one_healthy
    ∧ updaters one_healthy !! lu = None
    ∧ updaters s' !! lu = Some zero_Result
    ∧ goroutines s' =
        (goroutines one_healthy
           ++ [mkGoroutine (Some lu) (FuncChecker counting) 5 AtNewTicker])%list.
Proof.
  apply (RegisterPeriodicFunc_duplicate_keeps_goroutine None 0
           {| registeredChecks := Some (<["a" := FuncChecker healthy_check]> ∅) |}
           "a" (FuncChecker healthy_check) 5 counting one_healthy).
  - reflexivity.
  - vm_compute; reflexivity.
  - vm_compute; reflexivity.
Defined.

Lemma RegisterPeriodicFunc_reports_healthy_at_first_witness :
  ∃ s1,
    RegisterPeriodicFunc None "load" 5 counting one_healthy = (Returned tt, s1)
    ∧ world s1 = world one_healthy
    ∧ ∀ (order : list string) (status : Status) s2,
        "load" ∈ order →
        Registry_CheckStatus (Some 0) order s1 = (Returned status, s2) →
        status !! "load" = Some {| Healthy := true; hcMessage := EmptyString |}.
Proof.
  apply (RegisterPeriodicFunc_reports_healthy_at_first None 0
           (<["a" := FuncChecker healthy_check]> ∅) "load" 5 counting one_healthy).
  - reflexivity.
  - vm_compute; reflexivity.
  - vm_compute; reflexivity.
Defined.

Lemma Tick_panic_ends_run_witness :
  run [Tick 0; Store 0] crashing_periodic = (Panicked "connection refused", crashing_periodic)
  ∧ Check (UpdaterChecker (Some 0)) crashing_periodic = (Returned zero_Result, crashing_periodic).
Proof.
  apply (Tick_panic_ends_run crashing_periodic 0 0 (FuncChecker crashing) 5 zero_Result
           "connection refused" crashing_periodic [Store 0]).
  - split; [vm_compute; reflexivity|]. split; [vm_compute; reflexivity|].
    intros j g Hj. destruct j as [|j]; [done|]. vm_compute. discriminate.
  - vm_compute; reflexivity.
Defined.


Lemma statusResponse_write_error_logged_witness :
  ∃ w', statusResponse plain_json broken_pipe {| Method := "GET" |} 200 ∅ boot =
          (Returned w',
           log_Printf ("error writing health status response body: " ++ "write: broken pipe") boot)
        ∧ code w' = Some 200%Z
        ∧ body w' = body broken_pipe.
Proof.
  apply (statusResponse_write_error_logged plain_json broken_pipe {| Method := "GET" |} 200 ∅
           boot "{}" "write: broken pipe"); reflexivity.
Defined.


Lemma healthy_checks_GET_200_witness :
  ∃ w' s2,
    StatusHandler plain_json new_ResponseWriter {| Method := "GET" |} ["a"] ["a"] one_healthy =
      (Returned w', s2)
    ∧ code w' = Some 200%Z.
Proof.
  apply (healthy_checks_GET_200 plain_json one_healthy 0
           {| registeredChecks := Some (<["a" := FuncChecker healthy_check]> ∅) |}).
  - reflexivity.
  - vm_compute; reflexivity.
  - intros k v w. unfold checks_of; simpl. rewrite lookup_insert_Some, lookup_empty.
    intros [[_ <-]|[_ [=]]]. do 2 eexists. reflexivity.
  - intros checks. eexists. reflexivity.
Defined.

Lemma failing_check_GET_503_witness :
  ∃ s1 w' s2,
    pkg_RegisterFunc "b" disk_full one_healthy = (Returned tt, s1)
    ∧ StatusHandler plain_json new_ResponseWriter {| Method := "GET" |}
        ["a"; "b"] ["b"; "a"] s1 = (Returned w', s2)
    ∧ code w' = Some 503%Z.
Proof.
  apply (failing_check_GET_503 plain_json one_healthy 0
           (<["a" := FuncChecker healthy_check]> ∅) "b" disk_full).
  - reflexivity.
  - vm_compute; reflexivity.
  - vm_compute; reflexivity.
  - intros k v. rewrite lookup_insert_Some, lookup_empty.
    intros [[_ <-]|[_ [=]]] w. do 2 eexists. reflexivity.
  - intros w. do 3 eexists. reflexivity.
  - unfold range_order. by_computation.
  - by_computation.
  - intros checks. eexists. reflexivity.
Defined.
